(** * Monitor Sensors Via Arduino LCD Keypad Shield: a verified model

    A shallow embedding of the sketch
    [monitor_sensors_via_arduino_lcd_keypad_shield.ino]: the key decoder
    [getKey], the keypad poller [checkLCDKeypad], the sensor registry
    [sensors] and the number formatters [fmt_unsigned] and [fmt_double].

    Conventions.  C integers are values of [Z]; the target is an 8-bit AVR,
    so [int] is 16 bits wide, [unsigned long] 32 bits and [byte] 8 bits.
    Conversions and wrap-around are written out where the sketch can reach
    them.  The counters of the formatters ([blen], [idx], [len], [padding],
    [width], [prec]) are natural numbers: the sketch decrements them only
    when they are not zero and subtracts only under a guard, so none of
    them wraps.  A [char] buffer is a [list Z] of character codes, a
    [char *] is an optional offset into it ([None] is the null pointer),
    and a store outside the buffer is a fault ([None]) of the memory
    monad. *)

From Stdlib Require Import ZArith Lia String Ascii.
From Stdlib Require Import QArith Qround Qabs Lqa.
From Stdlib Require Import SpecFloat.
From stdpp Require Import base tactics option numbers list.

Open Scope Z_scope.

(** ** Machine integers *)

Definition INT_MAX : Z := 32767.
Definition UINT_MAX : Z := 65535.
Definition ULONG_MAX : Z := 4294967295.

(** Conversion of a value to [int] (two's complement, 16 bits). *)
Definition to_int (z : Z) : Z := (z + 32768) mod 65536 - 32768.

(** Conversion of a value to [unsigned int] (16 bits). *)
Definition to_unsigned (z : Z) : Z := z mod 65536.

(** Conversion of a value to [unsigned long] (32 bits). *)
Definition to_ulong (z : Z) : Z := z mod 4294967296.

(** ** Configuration of the sketch *)

(** [const int adcKeyVal[] = { 30, 150, 360, 535, 760 };] *)
Definition adcKeyVal : list Z := [30; 150; 360; 535; 760].

(** The display routines a sensor descriptor can point to. *)
Inductive handlerT : Type :=
  | tempSensorHandler
  | lightSensorHandler
  | pirSensorHandler.

(** [typedef struct sensorT]: the pin number of the sensor and the pointer
    to its handler function. *)
Record sensorT : Type := { pin : Z; handler : handlerT }.

(** [const sensorT sensors[]] *)
Definition sensors : list sensorT :=
  [ {| pin := 2; handler := tempSensorHandler |};
    {| pin := 3; handler := lightSensorHandler |};
    {| pin := 3; handler := pirSensorHandler |} ].

(** [NUM_SENSORS = (int) (sizeof (sensors) / sizeof (const sensorT))] *)
Definition NUM_SENSORS : Z := to_int (Z.of_nat (length sensors)).

(** The key identifiers the poller acts on, and the "no key" result. *)
Definition NONE : Z := -1.
Definition KEY_UP : Z := 1.
Definition KEY_DOWN : Z := 2.

(** ** Key decoder and keypad poller

    Both are written over an arbitrary threshold table and an arbitrary
    number of sensors; the sketch instantiates them with [adcKeyVal] and
    [NUM_SENSORS]. *)

Section Keypad.

Variable table : list Z.
Variable numSensors : Z.

(** [NUM_KEYS = (int) (sizeof (adcKeyVal) / sizeof (const int))] *)
Definition NUM_KEYS : Z := to_int (Z.of_nat (length table)).

(** The [for] loop of [getKey]: [rest] holds the entries
    [adcKeyVal[k]], [adcKeyVal[k+1]], ... still to be visited.  The
    comparison [input < adcKeyVal[k]] is between an [unsigned int] and
    an [int], so the threshold is converted to [unsigned int].  When the
    entries are used up the loop guard [k < NUM_KEYS] has failed and the
    code after the loop runs. *)
Fixpoint getKey_loop (input : Z) (rest : list Z) (k : Z) : Z :=
  match rest with
  | [] => if k >=? NUM_KEYS then NONE else k
  | t :: rest' =>
      if input <? to_unsigned t then k
      else getKey_loop input rest' (k + 1)
  end.

(** [int getKey(unsigned int input)] *)
Definition getKey (input : Z) : Z := getKey_loop input table 0.

(** The globals of the sketch that the poller touches. *)
Record state : Type := {
  adcKeyIn : Z;
  key : Z;
  sensorIndex : Z
}.

(** The [switch (key)] of the poller. *)
Definition key_action (k idx : Z) : Z :=
  if k =? KEY_UP then to_int (idx + 1)
  else if k =? KEY_DOWN then to_int (idx - 1)
  else idx.

(** The two bound checks that follow the [switch]. *)
Definition check_bounds (idx : Z) : Z :=
  let idx := if idx <? 0 then numSensors - 1 else idx in
  if idx >=? numSensors then 0 else idx.

(** [void checkLCDKeypad()].  [r1] and [r2] are what the two calls of
    [analogRead(keypadPin)] return ([int] values); the second one is
    only consumed when the first sample decodes to a key. *)
Definition checkLCDKeypad (r1 r2 : Z) (st : state) : state :=
  let adcKeyIn1 := r1 in
  let key1 := getKey (to_unsigned adcKeyIn1) in
  if negb (key1 =? -1) then
    let adcKeyIn2 := r2 in
    let key2 := getKey (to_unsigned adcKeyIn2) in
    if key2 >=? 0 then
      {| adcKeyIn := adcKeyIn2; key := key2;
         sensorIndex := check_bounds (key_action key2 (sensorIndex st)) |}
    else
      {| adcKeyIn := adcKeyIn2; key := key2; sensorIndex := sensorIndex st |}
  else
    {| adcKeyIn := adcKeyIn1; key := key1; sensorIndex := sensorIndex st |}.

(** Successive invocations of the poller by the timer, one pair of
    readings per invocation. *)
Definition run (presses : list (Z * Z)) (st : state) : state :=
  fold_left (fun s p => checkLCDKeypad (fst p) (snd p) s) presses st.

(** The states the firmware can be in: the globals start at zero and only
    the poller changes them. *)
Inductive reachable : state -> Prop :=
  | reachable_init :
      reachable {| adcKeyIn := 0; key := 0; sensorIndex := 0 |}
  | reachable_step r1 r2 st :
      -32768 <= r1 <= INT_MAX -> -32768 <= r2 <= INT_MAX ->
      reachable st -> reachable (checkLCDKeypad r1 r2 st).

(** A band of the table: [k] is a position whose threshold lies strictly
    above the sample while the one before it, if any, does not. *)
Definition band (s : Z) (k : nat) : Prop :=
  (exists t, table !! k = Some t /\ s < t) /\
  (k = 0%nat \/ exists t', table !! pred k = Some t' /\ t' <= s).

(** A press that passes the debounce re-read as key [k]. *)
Definition confirmed (r1 r2 k : Z) : Prop :=
  getKey (to_unsigned r1) <> NONE /\ getKey (to_unsigned r2) = k.

End Keypad.

(** The state the sketch starts in. *)
Definition init_state : state := {| adcKeyIn := 0; key := 0; sensorIndex := 0 |}.

(** A threshold table in ascending order. *)
Definition ascending (table : list Z) : Prop :=
  forall (i j : nat) (a b : Z),
    (i < j)%nat -> table !! i = Some a -> table !! j = Some b -> a <= b.

(** A table the sketch can hold: thresholds that are non-negative [int]
    values, as the readings of the converter are, and a length that is an
    [int]. *)
Definition thresholds (table : list Z) : Prop :=
  Forall (fun t => 0 <= t <= INT_MAX) table /\
  Z.of_nat (length table) <= INT_MAX.

(** ** Character buffers *)

(** The character codes the formatters write. *)
Definition CH_NUL : Z := 0.
Definition CH_ZERO : Z := 48.
Definition CH_MINUS : Z := 45.
Definition CH_DOT : Z := 46.

(** The content of the caller's buffer, one character code per cell. *)
Abbreviation mem := (list Z).

(** [*p = c]: a store through a pointer that leaves the buffer is a fault. *)
Definition store (m : mem) (p : nat) (c : Z) : option mem :=
  if decide (p < length m)%nat then Some (<[p := c]> m) else None.

(** The characters of a list up to the first null character. *)
Fixpoint c_str (cs : list Z) : list Z :=
  match cs with
  | [] => []
  | c :: cs' => if c =? CH_NUL then [] else c :: c_str cs'
  end.

(** The C string that starts at offset [p] of the buffer. *)
Definition string_at (m : mem) (p : nat) : list Z := c_str (drop p m).

(** The character codes of a string literal. *)
Definition chars (s : string) : list Z :=
  map (fun a => Z.of_N (N_of_ascii a)) (list_ascii_of_string s).

(** ** [fmt_unsigned] *)

(** [sizeof (dbuf)] *)
Definition DBUF_SIZE : nat := 10.

(** The first loop of [fmt_unsigned]: the digits of [value], backwards, in
    [dbuf].  [fuel] is [sizeof (dbuf) - idx], the number of iterations the
    guard [idx < sizeof (dbuf)] still allows. *)
Fixpoint digit_loop (fuel : nat) (value : Z) (dbuf : list Z) (idx : nat)
  : list Z * nat :=
  match fuel with
  | O => (dbuf, idx)
  | S fuel' =>
      let dbuf := <[idx := value mod 10 + CH_ZERO]> dbuf in
      let idx := S idx in
      let value := value / 10 in
      if value =? 0 then (dbuf, idx)
      else digit_loop fuel' value dbuf idx
  end.

(** The second loop of [fmt_unsigned], by recursion on [blen]: the guard
    [--blen > 0] holds exactly when [blen] is at least 2 before the
    decrement ([blen] is not 0 here, the function has returned for it).
    The result is the final [buf], [len] and buffer content. *)
Fixpoint copy_loop (blen idx padding : nat) (c : Z) (dbuf : list Z)
    (buf len : nat) (m : mem) : option (nat * nat * mem) :=
  match blen with
  | S (S _ as blen') =>
      if (idx =? 0)%nat && (padding =? 0)%nat then Some (buf, len, m)
      else
        let '(idx, padding, c) :=
          if negb (padding =? 0)%nat then (idx, pred padding, c)
          else (pred idx, padding, default 0 (dbuf !! pred idx)) in
        m ← store m buf c;
        copy_loop blen' idx padding c dbuf (S buf) (S len) m
  | _ => Some (buf, len, m)
  end.

(** [unsigned fmt_unsigned (unsigned long value, char * buf, unsigned blen,
    byte width)].  The result is the returned length and the buffer. *)
Definition fmt_unsigned (value : Z) (buf : option nat) (blen width : nat)
    (m : mem) : option (nat * mem) :=
  match buf with
  | None => Some (0%nat, m)
  | Some buf =>
      if (blen =? 0)%nat then Some (0%nat, m)
      else
        let '(dbuf, idx) := digit_loop DBUF_SIZE value (replicate DBUF_SIZE 0) 0 in
        let padding := if (idx <? width)%nat then (width - idx)%nat else 0%nat in
        '(buf, len, m) ← copy_loop blen idx padding CH_ZERO dbuf buf 0 m;
        m ← store m buf CH_NUL;
        Some (len, m)
  end.

(** The decimal digits of [value], most significant first, as the first
    loop produces them. *)
Definition digits (value : Z) : list Z :=
  let '(dbuf, idx) := digit_loop DBUF_SIZE value (replicate DBUF_SIZE 0) 0 in
  reverse (take idx dbuf).

(** The digits of [value], least significant first, that [fuel] iterations
    of the first loop put into [dbuf]. *)
Fixpoint rev_digits (fuel : nat) (value : Z) : list Z :=
  match fuel with
  | O => []
  | S fuel' =>
      (value mod 10 + CH_ZERO)
        :: (if value / 10 =? 0 then [] else rev_digits fuel' (value / 10))
  end.

(** The numeral of [value] padded with zeros on the left to [width]. *)
Definition padded (value : Z) (width : nat) : list Z :=
  replicate (width - length (digits value)) CH_ZERO ++ digits value.

(** The number a string of decimal digits denotes. *)
Definition decimal_value (ds : list Z) : Z :=
  fold_left (fun acc d => 10 * acc + (d - CH_ZERO)) ds 0.

(** [ds] is the decimal numeral of [v]: digit characters only, the right
    value, and no leading zero except for the numeral of zero itself. *)
Definition is_numeral (ds : list Z) (v : Z) : Prop :=
  Forall (fun d => CH_ZERO <= d <= CH_ZERO + 9) ds /\
  decimal_value ds = v /\
  (ds = [CH_ZERO] \/ exists d ds', ds = d :: ds' /\ d <> CH_ZERO).

(** ** [fmt_double] *)

(** The arithmetic of the type [double] that [fmt_double] uses.  The sketch
    leaves it to the target: 32 bits on the AVR boards, 64 bits on others. *)
Class DoubleOps (D : Type) : Type := {
  d_zero : D;                   (* the literal 0.0 *)
  d_half : D;                   (* the literal 0.5 *)
  d_ten : D;                    (* the literal 10.0 *)
  d_ltb : D -> D -> bool;       (* x < y *)
  d_opp : D -> D;               (* -x *)
  d_add : D -> D -> D;
  d_sub : D -> D -> D;
  d_mul : D -> D -> D;
  d_div : D -> D -> D;
  d_of_ulong : Z -> D;          (* conversion of an unsigned long *)
  d_to_ulong : D -> Z           (* the cast (unsigned long) x *)
}.

(** [const byte maxprec = 6;] *)
Definition maxprec : nat := 6.

Section FmtDouble.

Context {D : Type} `{DoubleOps D}.

(** The loop that computes the rounding factor and the fractional
    multiplier, [prec] iterations. *)
Fixpoint rounding_loop (n : nat) (roundingFactor : D) (mult : Z) : D * Z :=
  match n with
  | O => (roundingFactor, mult)
  | S n' => rounding_loop n' (d_div roundingFactor d_ten) (to_ulong (mult * 10))
  end.

(** The integral portion: the block guarded by the first [if (blen > 0)]. *)
Definition integral_part (value roundingFactor : D) (buf blen : nat) (m : mem)
  : option (D * nat * nat * mem) :=
  if (0 <? blen)%nat then
    let value := d_add value roundingFactor in
    '(len, m) ← fmt_unsigned (d_to_ulong value) (Some buf) blen 0 m;
    Some (value, (buf + len)%nat, (blen - len)%nat, m)
  else Some (value, buf, blen, m).

(** The fractional portion: the block guarded by
    [(prec > 0) && (blen > 0)]. *)
Definition fractional_part (value : D) (mult : Z) (prec buf blen : nat)
    (m : mem) : option (nat * mem) :=
  if (0 <? prec)%nat && (0 <? blen)%nat then
    m ← store m buf CH_DOT;
    let buf := S buf in
    let blen := pred blen in
    if (0 <? blen)%nat then
      let frac :=
        d_mul (d_sub value (d_of_ulong (d_to_ulong value))) (d_of_ulong mult) in
      '(len, m) ← fmt_unsigned (d_to_ulong frac) (Some buf) blen prec m;
      Some ((buf + len)%nat, m)
    else Some (buf, m)
  else Some (buf, m).

(** [void fmt_double (double value, byte prec, char * buf, unsigned blen)].
    The result is the buffer after the call. *)
Definition fmt_double (value : D) (prec : nat) (buf : option nat)
    (blen : nat) (m : mem) : option mem :=
  match buf with
  | None => Some m
  | Some buf =>
      if (blen =? 0)%nat then Some m
      else
        let prec := if (maxprec <? prec)%nat then maxprec else prec in
        let blen := pred blen in
        '(buf, m) ←
          (if (0 <? blen)%nat then
             '(value, buf, blen, m) ←
               (if d_ltb value d_zero then
                  m ← store m buf CH_MINUS;
                  Some (d_opp value, S buf, pred blen, m)
                else Some (value, buf, blen, m));
             let '(roundingFactor, mult) := rounding_loop prec d_half 1 in
             '(value, buf, blen, m) ←
               integral_part value roundingFactor buf blen m;
             fractional_part value mult prec buf blen m
           else Some (buf, m));
        store m buf CH_NUL
  end.

(** The text of the call, stage by stage: what the three blocks of
    [fmt_double] store, as lists of characters. *)
Definition sign_text (value : D) : list Z :=
  if d_ltb value d_zero then [CH_MINUS] else [].

Definition integral_text (value : D) (blen : nat) : list Z :=
  if (0 <? blen)%nat then take (pred blen) (padded (d_to_ulong value) 0)
  else [].

Definition fractional_text (value : D) (mult : Z) (prec blen : nat) : list Z :=
  if (0 <? prec)%nat && (0 <? blen)%nat then
    CH_DOT ::
      (if (0 <? pred blen)%nat then
         take (pred (pred blen))
           (padded
              (d_to_ulong
                 (d_mul (d_sub value (d_of_ulong (d_to_ulong value)))
                    (d_of_ulong mult)))
              prec)
       else [])
  else [].

Definition fmt_double_text (value : D) (prec blen : nat) : list Z :=
  let prec := if (maxprec <? prec)%nat then maxprec else prec in
  let blen := pred blen in
  if (0 <? blen)%nat then
    let sign := sign_text value in
    let value := if d_ltb value d_zero then d_opp value else value in
    let blen := (blen - length sign)%nat in
    let '(roundingFactor, mult) := rounding_loop prec d_half 1 in
    let value := if (0 <? blen)%nat then d_add value roundingFactor else value in
    let int := integral_text value blen in
    sign ++ int ++ fractional_text value mult prec (blen - length int)
  else [].

End FmtDouble.

(** *** IEEE 754 binary arithmetic for [double]

    [prec] bits of mantissa and exponent bound [emax]: 24 and 128 for the
    32-bit [double] of the AVR boards, 53 and 1024 for a 64-bit one. *)

Section IEEE.

Variables prec emax : Z.

(** The integer [z] rounded to the format. *)
Definition ieee_of_Z (z : Z) : spec_float := binary_normalize prec emax z 0 false.

(** Truncation towards zero of a finite number; C leaves the cast of
    anything else, and of numbers outside the range of [unsigned long],
    undefined: they are given the wrapped value here. *)
Definition ieee_to_ulong (x : spec_float) : Z :=
  match x with
  | S754_finite s m e =>
      let a := if 0 <=? e then Z.pos m * 2 ^ e else Z.pos m / 2 ^ (- e) in
      to_ulong (if s then - a else a)
  | _ => 0
  end.

(** The value the compiler gives the decimal literal [num/den], for
    [num] and [den] that the format represents exactly. *)
Definition ieee_literal (num den : Z) : spec_float :=
  SFdiv prec emax (ieee_of_Z num) (ieee_of_Z den).

#[local] Instance ieee_double : DoubleOps spec_float := {
  d_zero := S754_zero false;
  d_half := ieee_literal 1 2;
  d_ten := ieee_of_Z 10;
  d_ltb := SFltb;
  d_opp := SFopp;
  d_add := SFadd prec emax;
  d_sub := SFsub prec emax;
  d_mul := SFmul prec emax;
  d_div := SFdiv prec emax;
  d_of_ulong := ieee_of_Z;
  d_to_ulong := ieee_to_ulong
}.

End IEEE.

(** The two formats. *)
Definition binary32 : DoubleOps spec_float := ieee_double 24 128.


(** *** Exact arithmetic for [double]

    The rationals, as the arithmetic that the floating-point formats
    approximate: in it the rounding that [fmt_double] aims at can be
    stated for every value. *)

(** The cast [(unsigned long) q]: truncation towards zero. *)
Definition exact_to_ulong (q : Q) : Z :=
  to_ulong (if Qle_bool 0 q then Qfloor q else Qceiling q).

#[local] Instance exact_double : DoubleOps Q := {
  d_zero := 0%Q;
  d_half := (1 # 2)%Q;
  d_ten := inject_Z 10;
  d_ltb := fun x y => negb (Qle_bool y x);
  d_opp := Qopp;
  d_add := Qplus;
  d_sub := Qminus;
  d_mul := Qmult;
  d_div := Qdiv;
  d_of_ulong := inject_Z;
  d_to_ulong := exact_to_ulong
}.

(** The magnitude of [q], scaled by [10 ^ prec] and rounded to the nearest
    integer, a tie going up: together with the sign of [q] this is [q]
    rounded half away from zero at [prec] decimal places. *)
Definition half_away_scaled (q : Q) (prec : nat) : Z :=
  Qfloor (Qabs q * inject_Z (10 ^ Z.of_nat prec) + (1 # 2)).

(** The decimal text of the scaled integer [n]: a sign, the numeral of the
    integral part and, for a precision above 0, a point and [prec] digits. *)
Definition decimal_text (neg : bool) (n : Z) (prec : nat) : list Z :=
  (if neg then [CH_MINUS] else [])
    ++ digits (n / 10 ^ Z.of_nat prec)
    ++ (if (0 <? prec)%nat then CH_DOT :: padded (n mod 10 ^ Z.of_nat prec) prec
        else []).

(** ** Sensor handlers and the display refresher *)

(** What the sketch needs of [double] besides the arithmetic of
    [fmt_double], to turn a reading into a temperature. *)
Class SensorOps (D : Type) : Type := {
  d_of_int : Z -> D;            (* conversion of an int *)
  d_per_step : D                (* the literal .004882814 *)
}.

#[local] Instance ieee_sensor (prec emax : Z) : SensorOps spec_float := {
  d_of_int := ieee_of_Z prec emax;
  d_per_step := ieee_literal prec emax 4882814 1000000000
}.

#[local] Instance exact_sensor : SensorOps Q := {
  d_of_int := inject_Z;
  d_per_step := (4882814 # 1000000000)%Q
}.

(** What the handlers read: the two converters of the board and, for the
    light sensor, the text that [sprintf] produces for ["%d"]. *)
Record env : Type := {
  analogRead : Z -> Z;
  digitalRead : Z -> Z;
  sprintf_d : Z -> list Z
}.

Definition HIGH : Z := 1.

(** The calls the sketch makes on the [lcd] object, in order. *)
Inductive lcd_op : Type :=
  | lcd_clear
  | lcd_cursorTo (line col : Z)
  | lcd_printIn (text : list Z).

(** [sensors[index]]: a read outside the array is a fault. *)
Definition sensor_at (index : Z) : option sensorT :=
  if index <? 0 then None else sensors !! Z.to_nat index.

(** A string copied with its null character to the front of a buffer, as
    [sprintf] does; it is a fault when the buffer is too short. *)
Definition write_string (m : mem) (cs : list Z) : option mem :=
  if decide (length cs < length m)%nat
  then Some (list_inserts 0 (cs ++ [CH_NUL]) m) else None.

Section Handlers.

Context {D : Type} `{DoubleOps D} `{SensorOps D}.

Variable e : env.

(** The content of the array [char value[32]] when a handler is entered. *)
Variable value0 : mem.

(** [double getVoltage(const int pin)] *)
Definition getVoltage (pin : Z) : D :=
  d_mul (d_of_int (analogRead e pin)) d_per_step.

(** [double getCelsius(const double voltage)] *)
Definition getCelsius (voltage : D) : D :=
  d_mul (d_sub voltage d_half) (d_of_int 100).

(** [void tempSensorHandler(const int index)] *)
Definition tempSensorHandler_run (index : Z) : option (list lcd_op) :=
  s ← sensor_at index;
  let sensorValue := getCelsius (getVoltage (pin s)) in
  value ← fmt_double sensorValue 2 (Some 0%nat) 32 value0;
  Some [lcd_printIn (chars "[Temperature]");
        lcd_cursorTo 2 0;
        lcd_printIn (chars "Value: ");
        lcd_printIn (string_at value 0);
        lcd_printIn (chars " C")].

(** [void lightSensorHandler(const int index)] *)
Definition lightSensorHandler_run (index : Z) : option (list lcd_op) :=
  s ← sensor_at index;
  let lightValue := analogRead e (pin s) in
  value ← write_string value0 (sprintf_d e lightValue);
  Some [lcd_printIn (chars "[Light]");
        lcd_cursorTo 2 0;
        lcd_printIn (chars "Value: ");
        lcd_printIn (string_at value 0)].

(** [void pirSensorHandler(const int index)] *)
Definition pirSensorHandler_run (index : Z) : option (list lcd_op) :=
  s ← sensor_at index;
  value ← write_string value0
             (if digitalRead e (pin s) =? HIGH then chars "ON" else chars "OFF");
  Some [lcd_printIn (chars "[Motion]");
        lcd_cursorTo 2 0;
        lcd_printIn (chars "Value: ");
        lcd_printIn (string_at value 0)].

(** The call through the function pointer of a descriptor. *)
Definition call_handler (h : handlerT) (index : Z) : option (list lcd_op) :=
  match h with
  | tempSensorHandler => tempSensorHandler_run index
  | lightSensorHandler => lightSensorHandler_run index
  | pirSensorHandler => pirSensorHandler_run index
  end.

(** [void updateLCDScreen()] *)
Definition updateLCDScreen (st : state) : option (list lcd_op) :=
  s ← sensor_at (sensorIndex st);
  ops ← call_handler (handler s) (sensorIndex st);
  Some (lcd_clear :: ops).

End Handlers.

(** The first line a handler prints. *)
Definition header (h : handlerT) : list Z :=
  match h with
  | tempSensorHandler => chars "[Temperature]"
  | lightSensorHandler => chars "[Light]"
  | pirSensorHandler => chars "[Motion]"
  end.

(** A converter of 10 bits: the readings are 0 to 1023. *)
Definition ADC_MAX : Z := 1023.

(** An environment in which every analog reading is [r]. *)
Definition reading_env (r : Z) : env :=
  {| analogRead := fun _ => r; digitalRead := fun _ => 0; sprintf_d := fun _ => [] |}.

(** The temperature text that [tempSensorHandler] gets from [fmt_double]
    for the reading [r], in a given arithmetic. *)
Definition temperature_text {D : Type} `{DoubleOps D} `{SensorOps D} (r : Z)
  : list Z :=
  fmt_double_text (getCelsius (getVoltage (reading_env r) 0)) 2 32.

(** The temperature of the reading [r] in exact arithmetic, and its text
    rounded half away from zero at two decimal places. *)
Definition celsius_exact (r : Z) : Q :=
  @getCelsius Q exact_double exact_sensor
    (@getVoltage Q exact_double exact_sensor (reading_env r) 0).

Definition temperature_exact (r : Z) : list Z :=
  decimal_text (negb (Qle_bool 0 (celsius_exact r)))
    (half_away_scaled (celsius_exact r) 2) 2.

(** The readings of the converter, and the check that an IEEE format
    displays the exactly rounded temperature for a reading. *)
Definition readings : list Z := Z.of_nat <$> seq 0 1024.

Definition temperature_agrees (prec emax : Z) (r : Z) : bool :=
  bool_decide
    (@temperature_text spec_float (ieee_double prec emax)
       (ieee_sensor prec emax) r
     = temperature_exact r).

(** A decimal digit character. *)
Definition is_digit (c : Z) : Prop := CH_ZERO <= c <= CH_ZERO + 9.

(** * Properties *)

(** ** Machine integers *)

Lemma to_int_small z : -32768 <= z <= INT_MAX -> to_int z = z.
Proof.
  unfold to_int, INT_MAX. intros Hz.
  rewrite Z.mod_small by lia. lia.
Qed.

Lemma to_unsigned_small z : 0 <= z <= UINT_MAX -> to_unsigned z = z.
Proof. unfold to_unsigned, UINT_MAX. intros Hz. apply Z.mod_small. lia. Qed.

(** ** The key decoder *)

Section KeyDecoder.

Variable table : list Z.
Hypothesis table_ok : thresholds table.

Lemma NUM_KEYS_length : NUM_KEYS table = Z.of_nat (length table).
Proof. unfold NUM_KEYS. apply to_int_small. destruct table_ok. lia. Qed.

(** The loop returns the position of the first threshold above the
    sample, counted from [k], and runs off the end when there is none. *)
Lemma getKey_loop_scan s rest :
  Forall (fun t => 0 <= t <= INT_MAX) rest ->
  forall k,
    getKey_loop table s rest k =
      match list_find (fun t => s < t) rest with
      | Some (i, _) => k + Z.of_nat i
      | None =>
          if k + Z.of_nat (length rest) >=? NUM_KEYS table then NONE
          else k + Z.of_nat (length rest)
      end.
Proof.
  induction 1 as [|t rest Ht Hrest IH]; intros k; simpl.
  - by rewrite Z.add_0_r.
  - rewrite to_unsigned_small by (unfold INT_MAX, UINT_MAX in *; lia).
    destruct (Z.ltb_spec s t) as [Hlt|Hge].
    + rewrite decide_True by done. simpl. lia.
    + rewrite decide_False by lia. rewrite IH.
      destruct (list_find _ rest) as [[i x]|]; simpl.
      * lia.
      * replace (k + 1 + Z.of_nat (length rest))
          with (k + Z.of_nat (S (length rest))) by lia.
        done.
Qed.

Lemma getKey_scan s :
  getKey table s =
    match list_find (fun t => s < t) table with
    | Some (i, _) => Z.of_nat i
    | None => NONE
    end.
Proof.
  unfold getKey. rewrite getKey_loop_scan by apply table_ok.
  destruct (list_find _ table) as [[i x]|]; [lia|].
  rewrite NUM_KEYS_length.
  destruct (Z.geb_spec (0 + Z.of_nat (length table)) (Z.of_nat (length table)));
    [done | lia].
Qed.

(** In an ascending table at most one position is the band of a sample. *)
Lemma band_unique s k k' :
  ascending table -> band table s k -> band table s k' -> k = k'.
Proof.
  intros Hasc [(t & Ht & Hst) Hprev] [(t' & Ht' & Hst') Hprev'].
  destruct (Nat.lt_trichotomy k k') as [Hlt|[->|Hlt]]; [|done|].
  - destruct Hprev' as [->|(u & Hu & Hus)]; [lia|].
    destruct (decide (k = pred k')) as [->|Hne].
    + rewrite Ht in Hu. injection Hu as <-. lia.
    + assert (t <= u) by (apply (Hasc k (pred k')); [lia|done..]). lia.
  - destruct Hprev as [->|(u & Hu & Hus)]; [lia|].
    destruct (decide (k' = pred k)) as [->|Hne].
    + rewrite Ht' in Hu. injection Hu as <-. lia.
    + assert (t' <= u) by (apply (Hasc k' (pred k)); [lia|done..]). lia.
Qed.

(** The position the scan stops at is a band of the sample. *)
Lemma list_find_band s i x :
  list_find (fun t => s < t) table = Some (i, x) -> band table s i.
Proof.
  intros (Hi & Hx & Hbefore)%list_find_Some. split; [by exists x|].
  destruct i as [|i]; [by left | right]. simpl.
  destruct (lookup_lt_is_Some_2 table i) as [u Hu].
  { apply lookup_lt_Some in Hi. lia. }
  exists u. split; [done|]. specialize (Hbefore i u Hu). lia.
Qed.

End KeyDecoder.

(** C1: for an ascending table of thresholds and a sample [s], [getKey]
    returns [NONE] when [s] is at or above the last entry (there is
    nothing to exceed in an empty table), and otherwise the one position
    [k] with [s < table[k]] and ([k = 0] or [s >= table[k-1]]). *)
Theorem getKey_unique_band (table : list Z) (s : Z) :
  ascending table ->
  thresholds table ->
  0 <= s <= UINT_MAX ->
  ((forall t, last table = Some t -> t <= s) -> getKey table s = NONE) /\
  ((exists t, last table = Some t /\ s < t) ->
   exists k : nat,
     getKey table s = Z.of_nat k /\
     band table s k /\
     forall k', band table s k' -> k' = k).
Proof.
  intros Hasc Hok Hs. rewrite (getKey_scan table Hok). split.
  - intros Hlast.
    destruct (list_find _ table) as [[i x]|] eqn:Hfind; [|done].
    exfalso. apply list_find_Some in Hfind as (Hi & Hx & _).
    destruct (last table) as [t|] eqn:Hl.
    + specialize (Hlast t eq_refl).
      rewrite last_lookup in Hl.
      destruct (decide (i = pred (length table))) as [->|Hne].
      * rewrite Hi in Hl. injection Hl as ->. lia.
      * apply lookup_lt_Some in Hi as Hlt.
        assert (x <= t) by (apply (Hasc i (pred (length table))); [lia|done..]).
        lia.
    + apply last_None in Hl. subst table. done.
  - intros (t & Hl & Hst).
    destruct (list_find _ table) as [[i x]|] eqn:Hfind.
    + exists i. split; [done|]. split.
      * by apply (list_find_band table s i x).
      * intros k' Hk'.
        apply (band_unique table s k' i Hasc Hk'), (list_find_band table s i x Hfind).
    + exfalso. rewrite list_find_None in Hfind.
      rewrite last_lookup in Hl. apply list_elem_of_lookup_2 in Hl.
      rewrite Forall_forall in Hfind. specialize (Hfind t Hl). lia.
Qed.

Lemma getKey_unique_band_witness :
  ascending adcKeyVal /\ thresholds adcKeyVal /\ 0 <= 100 <= UINT_MAX /\
  ((forall t, last adcKeyVal = Some t -> t <= 100) ->
   getKey adcKeyVal 100 = NONE) /\
  ((exists t, last adcKeyVal = Some t /\ 100 < t) ->
   exists k : nat,
     getKey adcKeyVal 100 = Z.of_nat k /\
     band adcKeyVal 100 k /\
     forall k', band adcKeyVal 100 k' -> k' = k).
Proof.
  assert (Hasc : ascending adcKeyVal).
  { intros i j a b Hij Hi Hj.
    do 5 (destruct i as [|i];
          [do 5 (destruct j as [|j]; [simpl in *; simplify_eq; lia|]); done|]).
    done. }
  assert (Hok : thresholds adcKeyVal).
  { split; [|vm_compute; discriminate].
    unfold adcKeyVal, INT_MAX. repeat constructor; lia. }
  assert (Hs : 0 <= 100 <= UINT_MAX) by (unfold UINT_MAX; lia).
  split; [exact Hasc|]. split; [exact Hok|]. split; [exact Hs|].
  exact (getKey_unique_band adcKeyVal 100 Hasc Hok Hs).
Defined.

(** ** The keypad poller *)

Section Poller.

Variable table : list Z.
Variable numSensors : Z.
Hypothesis numSensors_int : 1 <= numSensors <= INT_MAX.

#[local] Abbreviation poll := (checkLCDKeypad table numSensors).

(** Inside the range the [switch] and the bound checks step the index
    cyclically. *)
Lemma check_bounds_action k idx :
  0 <= idx < numSensors ->
  check_bounds numSensors (key_action k idx) =
    if k =? KEY_UP then (if idx + 1 >=? numSensors then 0 else idx + 1)
    else if k =? KEY_DOWN then (if idx <? 1 then numSensors - 1 else idx - 1)
    else idx.
Proof.
  intros Hidx. unfold check_bounds, key_action, INT_MAX in *.
  destruct (k =? KEY_UP); [|destruct (k =? KEY_DOWN)].
  - rewrite to_int_small by (unfold INT_MAX; lia).
    destruct (Z.ltb_spec (idx + 1) 0); [lia|].
    done.
  - rewrite to_int_small by (unfold INT_MAX; lia).
    destruct (Z.ltb_spec (idx - 1) 0), (Z.ltb_spec idx 1); try lia.
    + destruct (Z.geb_spec (numSensors - 1) numSensors); [lia | done].
    + destruct (Z.geb_spec (idx - 1) numSensors); [lia | done].
  - destruct (Z.ltb_spec idx 0); [lia|].
    destruct (Z.geb_spec idx numSensors); [lia | done].
Qed.

Lemma check_bounds_in_range k idx :
  0 <= idx < numSensors ->
  0 <= check_bounds numSensors (key_action k idx) < numSensors.
Proof.
  intros Hidx. rewrite check_bounds_action by done.
  repeat case_match; lia.
Qed.

(** One invocation of the poller keeps the index in range. *)
Lemma poll_in_range r1 r2 st :
  0 <= sensorIndex st < numSensors ->
  0 <= sensorIndex (poll r1 r2 st) < numSensors.
Proof.
  intros Hidx. unfold checkLCDKeypad.
  repeat case_match; simpl; auto using check_bounds_in_range.
Qed.

(** Every state the firmware reaches has its index in range. *)
Lemma reachable_in_range st :
  reachable table numSensors st -> 0 <= sensorIndex st < numSensors.
Proof.
  induction 1 as [|r1 r2 st _ _ _ IH]; simpl.
  - lia.
  - by apply poll_in_range.
Qed.

(** What one invocation does to the index, by the two decoded keys. *)
Lemma poll_index r1 r2 st :
  0 <= sensorIndex st < numSensors ->
  sensorIndex (poll r1 r2 st) =
    if getKey table (to_unsigned r1) =? NONE then sensorIndex st
    else if getKey table (to_unsigned r2) <? 0 then sensorIndex st
    else if getKey table (to_unsigned r2) =? KEY_UP then
      (if sensorIndex st + 1 >=? numSensors then 0 else sensorIndex st + 1)
    else if getKey table (to_unsigned r2) =? KEY_DOWN then
      (if sensorIndex st <? 1 then numSensors - 1 else sensorIndex st - 1)
    else sensorIndex st.
Proof.
  intros Hidx. unfold checkLCDKeypad, NONE.
  destruct (getKey table (to_unsigned r1) =? -1); simpl; [done|].
  destruct (Z.geb_spec (getKey table (to_unsigned r2)) 0) as [Hge|Hlt]; simpl.
  - destruct (Z.ltb_spec (getKey table (to_unsigned r2)) 0); [lia|].
    by apply check_bounds_action.
  - destruct (Z.ltb_spec (getKey table (to_unsigned r2)) 0); [done | lia].
Qed.

(** A re-read that is neither Up nor Down leaves the index alone. *)
Lemma poll_unbound r1 r2 st :
  0 <= sensorIndex st < numSensors ->
  getKey table (to_unsigned r2) <> KEY_UP ->
  getKey table (to_unsigned r2) <> KEY_DOWN ->
  sensorIndex (poll r1 r2 st) = sensorIndex st.
Proof.
  intros Hidx Hup Hdown. rewrite poll_index by done.
  destruct (_ =? NONE); [done|]. destruct (_ <? 0); [done|].
  destruct (Z.eqb_spec (getKey table (to_unsigned r2)) KEY_UP); [done|].
  destruct (Z.eqb_spec (getKey table (to_unsigned r2)) KEY_DOWN); done.
Qed.

(** A confirmed Up press steps the index forwards, cyclically. *)
Lemma poll_up r1 r2 st :
  0 <= sensorIndex st < numSensors ->
  confirmed table r1 r2 KEY_UP ->
  sensorIndex (poll r1 r2 st) =
    if sensorIndex st + 1 >=? numSensors then 0 else sensorIndex st + 1.
Proof.
  intros Hidx [H1 H2]. rewrite poll_index by done. rewrite H2.
  destruct (Z.eqb_spec (getKey table (to_unsigned r1)) NONE); done.
Qed.

(** A confirmed Down press steps the index backwards, cyclically. *)
Lemma poll_down r1 r2 st :
  0 <= sensorIndex st < numSensors ->
  confirmed table r1 r2 KEY_DOWN ->
  sensorIndex (poll r1 r2 st) =
    if sensorIndex st <? 1 then numSensors - 1 else sensorIndex st - 1.
Proof.
  intros Hidx [H1 H2]. rewrite poll_index by done. rewrite H2.
  destruct (Z.eqb_spec (getKey table (to_unsigned r1)) NONE); done.
Qed.

End Poller.

(** C2: if [sensorIndex] is in [[0, NUM_SENSORS)] before an invocation of
    [checkLCDKeypad], it is in [[0, NUM_SENSORS)] after it, whatever the two
    analog readings are. *)
Theorem sensorIndex_stays_in_range (table : list Z) (numSensors r1 r2 : Z)
    (st : state) :
  numSensors <= INT_MAX ->
  0 <= sensorIndex st < numSensors ->
  0 <= sensorIndex (checkLCDKeypad table numSensors r1 r2 st) < numSensors.
Proof.
  intros Hint Hidx. apply poll_in_range; [lia | done].
Qed.

Lemma sensorIndex_stays_in_range_witness :
  NUM_SENSORS <= INT_MAX /\
  0 <= sensorIndex init_state < NUM_SENSORS /\
  0 <= sensorIndex (checkLCDKeypad adcKeyVal NUM_SENSORS 200 200 init_state)
    < NUM_SENSORS.
Proof.
  assert (Hint : NUM_SENSORS <= INT_MAX) by (vm_compute; discriminate).
  assert (Hidx : 0 <= sensorIndex init_state < NUM_SENSORS)
    by (vm_compute; split; [discriminate | reflexivity]).
  split; [exact Hint|]. split; [exact Hidx|].
  exact (sensorIndex_stays_in_range adcKeyVal NUM_SENSORS 200 200 init_state
           Hint Hidx).
Defined.

(** C3: with [numSensors] sensors a confirmed Down press at index 0 gives
    index [numSensors - 1] and a confirmed Up press at index
    [numSensors - 1] gives index 0; with 3 sensors, three confirmed Up
    presses in a row starting at index 0 end at index 0. *)
Theorem selection_wraps_around (table : list Z) (numSensors : Z) :
  1 <= numSensors <= INT_MAX ->
  (forall r1 r2 st,
     confirmed table r1 r2 KEY_DOWN -> sensorIndex st = 0 ->
     sensorIndex (checkLCDKeypad table numSensors r1 r2 st) = numSensors - 1) /\
  (forall r1 r2 st,
     confirmed table r1 r2 KEY_UP -> sensorIndex st = numSensors - 1 ->
     sensorIndex (checkLCDKeypad table numSensors r1 r2 st) = 0) /\
  (forall p1 p2 p3 st,
     numSensors = 3 ->
     confirmed table (fst p1) (snd p1) KEY_UP ->
     confirmed table (fst p2) (snd p2) KEY_UP ->
     confirmed table (fst p3) (snd p3) KEY_UP ->
     sensorIndex st = 0 ->
     sensorIndex (run table numSensors [p1; p2; p3] st) = 0).
Proof.
  intros HN. split; [|split].
  - intros r1 r2 st Hpress Hidx.
    rewrite (poll_down table numSensors HN) by (done || lia).
    rewrite Hidx. done.
  - intros r1 r2 st Hpress Hidx.
    rewrite (poll_up table numSensors HN) by (done || lia).
    rewrite Hidx. destruct (Z.geb_spec (numSensors - 1 + 1) numSensors); [done | lia].
  - intros p1 p2 p3 st -> H1 H2 H3 Hidx. simpl.
    assert (Hs1 : sensorIndex (checkLCDKeypad table 3 (fst p1) (snd p1) st) = 1).
    { rewrite (poll_up table 3 HN) by (done || lia). by rewrite Hidx. }
    assert (Hs2 : sensorIndex
                    (checkLCDKeypad table 3 (fst p2) (snd p2)
                       (checkLCDKeypad table 3 (fst p1) (snd p1) st)) = 2).
    { rewrite (poll_up table 3 HN) by (done || lia). by rewrite Hs1. }
    rewrite (poll_up table 3 HN) by (done || lia). by rewrite Hs2.
Qed.

Lemma selection_wraps_around_witness :
  1 <= NUM_SENSORS <= INT_MAX /\
  sensorIndex (checkLCDKeypad adcKeyVal NUM_SENSORS 200 210 init_state) = 2 /\
  sensorIndex (checkLCDKeypad adcKeyVal NUM_SENSORS 100 90
                 {| adcKeyIn := 0; key := 0; sensorIndex := 2 |}) = 0 /\
  sensorIndex (run adcKeyVal NUM_SENSORS [(100, 100); (40, 120); (99, 31)]
                 init_state) = 0.
Proof.
  assert (HN : 1 <= NUM_SENSORS <= INT_MAX)
    by (vm_compute; split; discriminate).
  destruct (selection_wraps_around adcKeyVal NUM_SENSORS HN)
    as (Hdown & Hup & Hcycle).
  split; [exact HN|]. split; [|split].
  - apply (Hdown 200 210 init_state); [|reflexivity].
    split; [vm_compute; discriminate | reflexivity].
  - apply (Hup 100 90 {| adcKeyIn := 0; key := 0; sensorIndex := 2 |});
      [|reflexivity].
    split; [vm_compute; discriminate | reflexivity].
  - apply (Hcycle (100, 100) (40, 120) (99, 31) init_state);
      try reflexivity;
      (split; [vm_compute; discriminate | reflexivity]).
Defined.

(** C4, as the sketch has it: when the first sample decodes to a key and
    the re-read after the debounce delay decodes to [NONE], or to a
    different key that is neither Up nor Down, the index is unchanged; and
    a re-read that decodes to Up or Down is acted on, whatever key the
    first sample decoded to: Up steps the index forwards and Down
    backwards, cyclically. *)
Theorem debounce_rejection (table : list Z) (numSensors r1 r2 : Z) (st : state) :
  1 <= numSensors <= INT_MAX ->
  reachable table numSensors st ->
  getKey table (to_unsigned r1) <> NONE ->
  (getKey table (to_unsigned r2) = NONE \/
   (getKey table (to_unsigned r2) <> getKey table (to_unsigned r1) /\
    getKey table (to_unsigned r2) <> KEY_UP /\
    getKey table (to_unsigned r2) <> KEY_DOWN) ->
   sensorIndex (checkLCDKeypad table numSensors r1 r2 st) = sensorIndex st) /\
  (getKey table (to_unsigned r2) = KEY_UP ->
   sensorIndex (checkLCDKeypad table numSensors r1 r2 st) =
     if sensorIndex st + 1 >=? numSensors then 0 else sensorIndex st + 1) /\
  (getKey table (to_unsigned r2) = KEY_DOWN ->
   sensorIndex (checkLCDKeypad table numSensors r1 r2 st) =
     if sensorIndex st <? 1 then numSensors - 1 else sensorIndex st - 1).
Proof.
  intros HN Hreach H1.
  pose proof (reachable_in_range table numSensors HN st Hreach) as Hidx.
  split; [|split].
  - intros H2. apply (poll_unbound table numSensors HN); [done| |].
    + destruct H2 as [->|(_ & Hup & _)]; done.
    + destruct H2 as [->|(_ & _ & Hdown)]; done.
  - intros Hup. by apply (poll_up table numSensors HN).
  - intros Hdown. by apply (poll_down table numSensors HN).
Qed.

Lemma debounce_rejection_witness :
  sensorIndex (checkLCDKeypad adcKeyVal NUM_SENSORS 100 1023 init_state)
  = sensorIndex init_state /\
  sensorIndex (checkLCDKeypad adcKeyVal NUM_SENSORS 10 100 init_state) = 1 /\
  sensorIndex (checkLCDKeypad adcKeyVal NUM_SENSORS 10 200 init_state) = 2.
Proof.
  assert (HN : 1 <= NUM_SENSORS <= INT_MAX) by (vm_compute; split; discriminate).
  split; [|split].
  - refine (proj1 (debounce_rejection adcKeyVal NUM_SENSORS 100 1023 init_state
                     HN (reachable_init adcKeyVal NUM_SENSORS) _) _).
    + vm_compute. discriminate.
    + left. reflexivity.
  - refine (proj1 (proj2 (debounce_rejection adcKeyVal NUM_SENSORS 10 100
                            init_state HN (reachable_init adcKeyVal NUM_SENSORS)
                            _)) _).
    + vm_compute. discriminate.
    + reflexivity.
  - refine (proj2 (proj2 (debounce_rejection adcKeyVal NUM_SENSORS 10 200
                            init_state HN (reachable_init adcKeyVal NUM_SENSORS)
                            _)) _).
    + vm_compute. discriminate.
    + reflexivity.
Defined.

(** C4 as stated fails: a first sample in the band of key 0 and a re-read
    in the band of key 1 are two different keys, and the index moves. *)
Lemma debounce_rejection_counterexample :
  getKey adcKeyVal (to_unsigned 10) = 0 /\
  getKey adcKeyVal (to_unsigned 100) = 1 /\
  sensorIndex init_state = 0 /\
  sensorIndex (checkLCDKeypad adcKeyVal NUM_SENSORS 10 100 init_state) = 1.
Proof. repeat split. Qed.

(** C8: an invocation whose re-read key is neither Up (1) nor Down (2)
    leaves the selected sensor index as it was. *)
Theorem unbound_key_no_change (table : list Z) (numSensors r1 r2 : Z)
    (st : state) :
  1 <= numSensors <= INT_MAX ->
  reachable table numSensors st ->
  getKey table (to_unsigned r2) <> KEY_UP ->
  getKey table (to_unsigned r2) <> KEY_DOWN ->
  sensorIndex (checkLCDKeypad table numSensors r1 r2 st) = sensorIndex st.
Proof.
  intros HN Hreach Hup Hdown.
  apply (poll_unbound table numSensors HN); [|done..].
  by apply (reachable_in_range table numSensors HN).
Qed.

Lemma unbound_key_no_change_witness :
  getKey adcKeyVal (to_unsigned 400) = 3 /\
  sensorIndex
    (checkLCDKeypad adcKeyVal NUM_SENSORS 400 400
       (checkLCDKeypad adcKeyVal NUM_SENSORS 100 100 init_state))
  = sensorIndex (checkLCDKeypad adcKeyVal NUM_SENSORS 100 100 init_state).
Proof.
  split; [reflexivity|].
  apply (unbound_key_no_change adcKeyVal NUM_SENSORS 400 400).
  - vm_compute. split; discriminate.
  - apply (reachable_step adcKeyVal NUM_SENSORS 100 100 init_state).
    + vm_compute. split; discriminate.
    + vm_compute. split; discriminate.
    + exact (reachable_init adcKeyVal NUM_SENSORS).
  - vm_compute. discriminate.
  - vm_compute. discriminate.
Defined.

(** ** The sensor registry *)

(** C9, as the sketch has it: the light sensor and the PIR sensor are
    registered on the same pin number, 3, and the temperature sensor is on
    pin 2. *)
Theorem shared_pin :
  sensors !! 0%nat = Some {| pin := 2; handler := tempSensorHandler |} /\
  sensors !! 1%nat = Some {| pin := 3; handler := lightSensorHandler |} /\
  sensors !! 2%nat = Some {| pin := 3; handler := pirSensorHandler |} /\
  (pin <$> sensors !! 1%nat) = (pin <$> sensors !! 2%nat).
Proof. repeat split. Qed.

(** C9 as stated fails: the temperature sensor's pin is not the light
    sensor's. *)
Lemma shared_pin_counterexample :
  (pin <$> sensors !! 0%nat) = Some 2 /\
  (pin <$> sensors !! 1%nat) = Some 3 /\
  (pin <$> sensors !! 0%nat) <> (pin <$> sensors !! 1%nat).
Proof. repeat split. discriminate. Qed.

(** ** Character buffers *)

Lemma store_Some m p c :
  (p < length m)%nat -> store m p c = Some (list_inserts p [c] m).
Proof. intros Hp. unfold store. by rewrite decide_True. Qed.

(** Storing one more character behind a run of stored characters. *)
Lemma list_inserts_snoc (m : mem) p cs c :
  <[(p + length cs)%nat := c]> (list_inserts p cs m) = list_inserts p (cs ++ [c]) m.
Proof. rewrite list_inserts_app_l. simpl. f_equal. lia. Qed.

(** A run stored behind a run. *)
Lemma list_inserts_append (m : mem) p cs cs' :
  list_inserts (p + length cs) cs' (list_inserts p cs m) = list_inserts p (cs ++ cs') m.
Proof. rewrite list_inserts_app_l. f_equal. lia. Qed.

(** A stored run can be read back. *)
Lemma drop_list_inserts (m : mem) p cs :
  (p + length cs <= length m)%nat ->
  drop p (list_inserts p cs m) = cs ++ drop (p + length cs) m.
Proof.
  revert m. induction p as [|p IH]; intros m Hlen.
  - rewrite <- (take_drop (length cs) m) at 1.
    rewrite list_inserts_0_r by (rewrite length_take; lia). done.
  - destruct m as [|x m]; simpl in Hlen; [lia|].
    rewrite list_inserts_cons. simpl. apply IH. lia.
Qed.

Lemma c_str_app_nul cs rest :
  Forall (fun c => c <> CH_NUL) cs -> c_str (cs ++ CH_NUL :: rest) = cs.
Proof.
  induction 1 as [|c cs Hc _ IH]; simpl; [done|].
  destruct (Z.eqb_spec c CH_NUL); [done|]. by rewrite IH.
Qed.

(** The string at [p] after a run that ends in a null character was stored
    there. *)
Lemma string_at_list_inserts (m : mem) p cs :
  Forall (fun c => c <> CH_NUL) cs ->
  (p + length cs < length m)%nat ->
  string_at (list_inserts p (cs ++ [CH_NUL]) m) p = cs.
Proof.
  intros Hcs Hlen. unfold string_at.
  rewrite drop_list_inserts by (rewrite length_app; simpl; lia).
  rewrite <- app_assoc. simpl. by apply c_str_app_nul.
Qed.

(** ** [fmt_unsigned] *)

(** The first loop writes [rev_digits] behind what [dbuf] already holds. *)
Lemma digit_loop_rev_digits fuel : forall value pre rest,
  (fuel <= length rest)%nat ->
  digit_loop fuel value (pre ++ rest) (length pre) =
    (pre ++ rev_digits fuel value ++ drop (length (rev_digits fuel value)) rest,
     (length pre + length (rev_digits fuel value))%nat).
Proof.
  induction fuel as [|fuel IH]; intros value pre rest Hlen; simpl.
  - by rewrite Nat.add_0_r.
  - destruct rest as [|r rest]; simpl in Hlen; [lia|].
    replace (<[length pre := value mod 10 + CH_ZERO]> (pre ++ r :: rest))
      with ((pre ++ [value mod 10 + CH_ZERO]) ++ rest).
    2:{ rewrite <- (Nat.add_0_r (length pre)) at 1.
        rewrite insert_app_r. simpl. by rewrite <- app_assoc. }
    destruct (value / 10 =? 0).
    + simpl. rewrite <- app_assoc. simpl. f_equal. lia.
    + replace (S (length pre)) with (length (pre ++ [value mod 10 + CH_ZERO]))
        by (rewrite length_app; simpl; lia).
      rewrite IH by lia. rewrite <- app_assoc, length_app. simpl.
      f_equal. lia.
Qed.

Lemma rev_digits_length fuel value :
  (length (rev_digits fuel value) <= fuel)%nat.
Proof.
  revert value. induction fuel as [|fuel IH]; intros value; simpl; [lia|].
  destruct (value / 10 =? 0); simpl; [lia|]. specialize (IH (value / 10)). lia.
Qed.

Lemma digit_loop_digits value :
  digit_loop DBUF_SIZE value (replicate DBUF_SIZE 0) 0 =
    (rev_digits DBUF_SIZE value
       ++ drop (length (rev_digits DBUF_SIZE value)) (replicate DBUF_SIZE 0),
     length (rev_digits DBUF_SIZE value)).
Proof.
  apply (digit_loop_rev_digits DBUF_SIZE value [] (replicate DBUF_SIZE 0)).
  by rewrite length_replicate.
Qed.

Lemma digits_rev_digits value : digits value = reverse (rev_digits DBUF_SIZE value).
Proof.
  unfold digits. rewrite digit_loop_digits. by rewrite take_app_length.
Qed.

Lemma digits_length value : (1 <= length (digits value) <= DBUF_SIZE)%nat.
Proof.
  rewrite digits_rev_digits, length_reverse. split.
  - unfold DBUF_SIZE. simpl. lia.
  - apply rev_digits_length.
Qed.

(** The value of a numeral, read from its least significant digit. *)
Lemma decimal_value_reverse ds :
  decimal_value (reverse ds) =
    fold_right (fun d acc => 10 * acc + (d - CH_ZERO)) 0 ds.
Proof.
  induction ds as [|d ds IH]; [done|].
  rewrite reverse_cons. unfold decimal_value in *.
  rewrite fold_left_app. simpl. by rewrite IH.
Qed.

Lemma rev_digits_value fuel : forall value,
  0 <= value < 10 ^ Z.of_nat fuel ->
  fold_right (fun d acc => 10 * acc + (d - CH_ZERO)) 0 (rev_digits fuel value)
  = value.
Proof.
  induction fuel as [|fuel IH]; intros value Hv.
  - simpl in *. lia.
  - cbn [rev_digits fold_right].
    rewrite Nat2Z.inj_succ, Z.pow_succ_r in Hv by lia.
    pose proof (Z.div_mod value 10 ltac:(lia)) as Hdm.
    pose proof (Z.mod_pos_bound value 10 ltac:(lia)).
    destruct (Z.eqb_spec (value / 10) 0) as [Hz|Hnz]; simpl.
    + lia.
    + rewrite IH; [lia|].
      split; [apply Z.div_pos; lia|].
      apply Z.div_lt_upper_bound; lia.
Qed.

Lemma rev_digits_chars fuel : forall value,
  Forall (fun d => CH_ZERO <= d <= CH_ZERO + 9) (rev_digits fuel value).
Proof.
  induction fuel as [|fuel IH]; intros value; simpl; [constructor|].
  constructor.
  - pose proof (Z.mod_pos_bound value 10 ltac:(lia)). lia.
  - destruct (value / 10 =? 0); [constructor | apply IH].
Qed.

(** The most significant digit is not a zero, except in the numeral ["0"]. *)
Lemma rev_digits_last fuel : forall value,
  (0 < fuel)%nat ->
  0 <= value < 10 ^ Z.of_nat fuel ->
  rev_digits fuel value = [CH_ZERO] \/
  exists d ds, rev_digits fuel value = ds ++ [d] /\ d <> CH_ZERO.
Proof.
  induction fuel as [|fuel IH]; intros value Hfuel Hv; [lia|].
  cbn [rev_digits].
  rewrite Nat2Z.inj_succ, Z.pow_succ_r in Hv by lia.
  pose proof (Z.div_mod value 10 ltac:(lia)) as Hdm.
  pose proof (Z.mod_pos_bound value 10 ltac:(lia)).
  destruct (Z.eqb_spec (value / 10) 0) as [Hz|Hnz].
  - destruct (decide (value mod 10 = 0)) as [H0|H0].
    + left. by rewrite H0.
    + right. exists (value mod 10 + CH_ZERO), []. split; [done | lia].
  - right.
    assert (Hq : 0 <= value / 10 < 10 ^ Z.of_nat fuel).
    { split; [apply Z.div_pos; lia|]. apply Z.div_lt_upper_bound; lia. }
    assert (Hpos : (0 < fuel)%nat).
    { destruct fuel; [simpl in Hq; lia | lia]. }
    destruct (IH (value / 10) Hpos Hq) as [H0|(d & ds & Hds & Hd)].
    + pose proof (rev_digits_value fuel (value / 10) Hq) as Hval.
      rewrite H0 in Hval. simpl in Hval. lia.
    + exists d, ((value mod 10 + CH_ZERO) :: ds). by rewrite Hds.
Qed.

(** The digits the first loop produces are the numeral of the value. *)
Lemma digits_is_numeral value :
  0 <= value <= ULONG_MAX -> is_numeral (digits value) value.
Proof.
  intros Hv. rewrite digits_rev_digits.
  assert (Hfuel : 0 <= value < 10 ^ Z.of_nat DBUF_SIZE)
    by (unfold ULONG_MAX, DBUF_SIZE in *; simpl; lia).
  split; [|split].
  - apply Forall_reverse, rev_digits_chars.
  - rewrite decimal_value_reverse. by apply rev_digits_value.
  - destruct (rev_digits_last DBUF_SIZE value ltac:(unfold DBUF_SIZE; lia) Hfuel)
      as [->|(d & ds & -> & Hd)].
    + by left.
    + right. exists d, (reverse ds). by rewrite reverse_snoc.
Qed.

(** One iteration of the second loop. *)
Lemma copy_loop_step blen idx padding c dbuf buf len (m : mem) :
  copy_loop (S (S blen)) idx padding c dbuf buf len m =
    if (idx =? 0)%nat && (padding =? 0)%nat then Some (buf, len, m)
    else
      let '(idx', padding', c') :=
        if negb (padding =? 0)%nat then (idx, pred padding, c)
        else (pred idx, padding, default 0 (dbuf !! pred idx)) in
      match store m buf c' with
      | Some m' => copy_loop (S blen) idx' padding' c' dbuf (S buf) (S len) m'
      | None => None
      end.
Proof.
  simpl. destruct ((idx =? 0)%nat && (padding =? 0)%nat); [done|].
  by destruct (negb (padding =? 0)%nat).
Qed.

(** The second loop stores, from [buf] on, as much of the padding zeros
    and of the digits (most significant first) as [blen - 1] cells hold. *)
Lemma copy_loop_spec blen : forall idx padding c dbuf buf len (m : mem),
  (1 <= blen)%nat ->
  (buf + blen <= length m)%nat ->
  (idx <= length dbuf)%nat ->
  (padding <> 0%nat -> c = CH_ZERO) ->
  copy_loop blen idx padding c dbuf buf len m =
    let out := take (pred blen)
                 (replicate padding CH_ZERO ++ reverse (take idx dbuf)) in
    Some ((buf + length out)%nat, (len + length out)%nat, list_inserts buf out m).
Proof.
  induction blen as [|blen IH]; intros idx padding c dbuf buf len m Hblen Hbuf Hidx Hc;
    [lia|].
  destruct blen as [|blen'].
  { simpl. by rewrite !Nat.add_0_r. }
  rewrite copy_loop_step. cbn [pred]. cbn zeta.
  destruct padding as [|padding]; [destruct idx as [|idx]|].
  - simpl. by rewrite !Nat.add_0_r.
  - cbn [Nat.eqb andb negb pred].
    destruct (lookup_lt_is_Some_2 dbuf idx ltac:(lia)) as [x Hx].
    rewrite Hx. cbn [default].
    rewrite store_Some by lia.
    rewrite IH; [|lia|rewrite length_inserts; lia|lia|done].
    rewrite (take_S_r _ _ _ Hx), reverse_snoc.
    cbn [replicate app pred take length]. cbn zeta.
    cbn [list_inserts].
    rewrite <- list_insert_inserts_lt by lia.
    by rewrite !Nat.add_succ_r.
  - rewrite (Hc ltac:(done)).
    replace ((idx =? 0)%nat && (S padding =? 0)%nat) with false
      by (by rewrite andb_false_r).
    cbn [Nat.eqb negb pred].
    rewrite store_Some by lia.
    rewrite IH; [|lia|rewrite length_inserts; lia|lia|done].
    cbn [replicate app pred take length]. cbn zeta.
    cbn [list_inserts].
    rewrite <- list_insert_inserts_lt by lia.
    by rewrite !Nat.add_succ_r.
Qed.

(** What [fmt_unsigned] returns and leaves in the buffer, for a buffer that
    is present, not empty and as long as the caller says. *)
Lemma fmt_unsigned_spec value p blen width (m : mem) :
  (1 <= blen)%nat ->
  (p + blen <= length m)%nat ->
  fmt_unsigned value (Some p) blen width m =
    let out := take (pred blen) (padded value width) in
    Some (length out, list_inserts p (out ++ [CH_NUL]) m).
Proof.
  intros Hblen Hp. unfold fmt_unsigned, padded.
  destruct (Nat.eqb_spec blen 0) as [|_]; [lia|].
  rewrite digits_rev_digits, digit_loop_digits, length_reverse.
  set (rd := rev_digits DBUF_SIZE value).
  replace (if (length rd <? width)%nat then (width - length rd)%nat else 0%nat)
    with (width - length rd)%nat
    by (destruct (Nat.ltb_spec (length rd) width); lia).
  rewrite copy_loop_spec; [|lia|lia|rewrite length_app; lia|done].
  rewrite take_app_length. cbn zeta. cbn [mbind option_bind].
  set (out := take (pred blen) _).
  assert (Hout : (length out <= pred blen)%nat).
  { unfold out. rewrite length_take. lia. }
  rewrite store_Some by (rewrite length_inserts; lia).
  cbn [mbind option_bind]. cbn [list_inserts].
  by rewrite list_inserts_snoc.
Qed.

(** The characters of a padded numeral are digits, so none is null. *)
Lemma padded_chars value width :
  Forall (fun d => CH_ZERO <= d <= CH_ZERO + 9) (padded value width).
Proof.
  unfold padded. apply Forall_app. split.
  - apply Forall_replicate. unfold CH_ZERO. lia.
  - rewrite digits_rev_digits. apply Forall_reverse, rev_digits_chars.
Qed.

Lemma padded_no_nul value width n :
  Forall (fun c => c <> CH_NUL) (take n (padded value width)).
Proof.
  apply Forall_take. eapply Forall_impl; [apply padded_chars|].
  unfold CH_ZERO, CH_NUL. simpl. intros. lia.
Qed.

Lemma padded_length value width :
  length (padded value width) = (width `max` length (digits value))%nat.
Proof. unfold padded. rewrite length_app, length_replicate. lia. Qed.

(** The contract of [fmt_unsigned] on a buffer of [blen] cells at [p]: the
    text is the padded numeral cut to [blen - 1] characters, it is followed
    by a null character, and no cell outside the buffer changes. *)
Lemma fmt_unsigned_contract value p blen width (m : mem) :
  (1 <= blen)%nat ->
  (p + blen <= length m)%nat ->
  exists (len : nat) (m' : mem),
    fmt_unsigned value (Some p) blen width m = Some (len, m') /\
    len = (pred blen `min` length (padded value width))%nat /\
    m' = list_inserts p (take len (padded value width) ++ [CH_NUL]) m /\
    length m' = length m /\
    m' !! (p + len)%nat = Some CH_NUL /\
    (forall i, (i < p)%nat \/ (p + blen <= i)%nat -> m' !! i = m !! i) /\
    string_at m' p = take len (padded value width).
Proof.
  intros Hblen Hp. rewrite fmt_unsigned_spec by done. cbn zeta.
  set (out := take (pred blen) (padded value width)).
  assert (Hlen : length out = (pred blen `min` length (padded value width))%nat)
    by apply length_take.
  assert (Hout : take (length out) (padded value width) = out).
  { rewrite Hlen. unfold out. by rewrite <- take_take, (take_ge (padded _ _)). }
  exists (length out), (list_inserts p (out ++ [CH_NUL]) m).
  rewrite Hout. split; [done|]. split; [done|]. split; [done|].
  split; [apply length_inserts|]. split; [|split].
  - rewrite list_lookup_inserts by (rewrite ?length_app; simpl; lia).
    replace (p + length out - p)%nat with (length out + 0)%nat by lia.
    by rewrite lookup_app_r, Nat.add_comm, Nat.add_sub by lia.
  - intros i [Hi|Hi].
    + by apply list_lookup_inserts_lt.
    + apply list_lookup_inserts_ge. rewrite length_app. simpl. lia.
  - apply string_at_list_inserts; [apply padded_no_nul | lia].
Qed.

(** C5, as the sketch has it: when the value has more decimal digits than
    the [blen - 1] characters the buffer can take, [fmt_unsigned] stores
    the first [blen - 1] characters of the (padded) numeral, so that the
    leading, most significant digits are kept and the trailing ones are
    lost; the result has [blen - 1] characters and is null-terminated.  So
    [fmt_unsigned (12345, buf, 3)] leaves the two characters ["12"]. *)
Theorem fmt_unsigned_truncates (value : Z) (p blen width : nat) (m : mem) :
  0 <= value <= ULONG_MAX ->
  (1 <= blen)%nat ->
  (p + blen <= length m)%nat ->
  (blen - 1 < length (digits value))%nat ->
  is_numeral (digits value) value /\
  (exists m' : mem,
     fmt_unsigned value (Some p) blen width m = Some ((blen - 1)%nat, m') /\
     string_at m' p = take (blen - 1) (padded value width) /\
     (width <= length (digits value) ->
      string_at m' p = take (blen - 1) (digits value))%nat /\
     m' !! (p + (blen - 1))%nat = Some CH_NUL) /\
  (forall m0 : mem, length m0 = 3%nat ->
   exists m' : mem,
     fmt_unsigned 12345 (Some 0%nat) 3 0 m0 = Some (2%nat, m') /\
     string_at m' 0 = chars "12" /\
     m' !! 2%nat = Some CH_NUL).
Proof.
  intros Hv Hblen Hp Hdigits. split; [by apply digits_is_numeral|]. split.
  - destruct (fmt_unsigned_contract value p blen width m Hblen Hp)
      as (len & m' & Hrun & Hlen & _ & _ & Hnul & _ & Hstr).
    rewrite padded_length in Hlen.
    assert (len = (blen - 1)%nat) as -> by lia.
    exists m'. repeat split; try done.
    intros Hw. rewrite Hstr. unfold padded.
    by replace (width - length (digits value))%nat with 0%nat by lia.
  - intros m0 Hm0.
    destruct (fmt_unsigned_contract 12345 0 3 0 m0 ltac:(lia) ltac:(lia))
      as (len & m' & Hrun & Hlen & _ & _ & Hnul & _ & Hstr).
    vm_compute in Hlen. subst len. by exists m'.
Qed.

Lemma fmt_unsigned_truncates_witness :
  is_numeral (digits 12345) 12345 /\
  (exists m' : mem,
     fmt_unsigned 12345 (Some 0%nat) 3 0 [1; 1; 1] = Some ((3 - 1)%nat, m') /\
     string_at m' 0 = take (3 - 1) (padded 12345 0) /\
     (0 <= length (digits 12345) ->
      string_at m' 0 = take (3 - 1) (digits 12345))%nat /\
     m' !! (0 + (3 - 1))%nat = Some CH_NUL) /\
  (forall m0 : mem, length m0 = 3%nat ->
   exists m' : mem,
     fmt_unsigned 12345 (Some 0%nat) 3 0 m0 = Some (2%nat, m') /\
     string_at m' 0 = chars "12" /\
     m' !! 2%nat = Some CH_NUL).
Proof.
  apply (fmt_unsigned_truncates 12345 0 3 0 [1; 1; 1]).
  - unfold ULONG_MAX. lia.
  - lia.
  - simpl. lia.
  - vm_compute. lia.
Defined.

(** C5 as stated fails: of the digits of 12345 a buffer of 3 cells keeps
    ["12"], the two most significant ones, not the two least significant
    ones, ["45"]. *)
Lemma fmt_unsigned_truncates_counterexample :
  digits 12345 = chars "12345" /\
  drop 3 (digits 12345) = chars "45" /\
  exists m' : mem,
    fmt_unsigned 12345 (Some 0%nat) 3 0 [1; 1; 1] = Some (2%nat, m') /\
    string_at m' 0 = chars "12" /\
    string_at m' 0 <> drop 3 (digits 12345).
Proof.
  split; [reflexivity|]. split; [reflexivity|].
  eexists. split; [reflexivity|]. split; [reflexivity|].
  vm_compute. discriminate.
Qed.

(** C6: without a buffer, or with capacity 0, [fmt_unsigned] stores nothing
    and returns 0.  Otherwise it stores at most [blen - 1] characters and a
    null character at an index below [blen], changes no cell outside the
    buffer, and, when the capacity suffices, leaves the numeral padded with
    leading zeros to [width]: [fmt_unsigned (1234, buf, 6)] gives ["1234"]
    and returns 4, [fmt_unsigned (7, buf, 6, 3)] gives ["007"]. *)
Theorem fmt_unsigned_safe (value : Z) (blen width : nat) (m : mem) :
  0 <= value <= ULONG_MAX ->
  fmt_unsigned value None blen width m = Some (0%nat, m) /\
  (forall buf, fmt_unsigned value buf 0 width m = Some (0%nat, m)) /\
  (forall p : nat,
     (1 <= blen)%nat -> (p + blen <= length m)%nat ->
     exists (len : nat) (m' : mem),
       fmt_unsigned value (Some p) blen width m = Some (len, m') /\
       (len <= blen - 1)%nat /\
       m' = list_inserts p (take len (padded value width) ++ [CH_NUL]) m /\
       m' !! (p + len)%nat = Some CH_NUL /\
       (len < blen)%nat /\
       length m' = length m /\
       (forall i, (i < p)%nat \/ (p + blen <= i)%nat -> m' !! i = m !! i) /\
       ((width `max` length (digits value) < blen)%nat ->
        len = (width `max` length (digits value))%nat /\
        string_at m' p =
          replicate (width - length (digits value)) CH_ZERO ++ digits value)) /\
  is_numeral (digits value) value /\
  (forall (m0 : mem) (p : nat), (p + 6 <= length m0)%nat ->
   exists m' : mem,
     fmt_unsigned 1234 (Some p) 6 0 m0 = Some (4%nat, m') /\
     string_at m' p = chars "1234") /\
  (forall (m0 : mem) (p : nat), (p + 6 <= length m0)%nat ->
   exists (len : nat) (m' : mem),
     fmt_unsigned 7 (Some p) 6 3 m0 = Some (len, m') /\
     string_at m' p = chars "007").
Proof.
  intros Hv. split; [done|]. split; [by intros [p|]|]. split; [|split; [|split]].
  - intros p Hblen Hp.
    destruct (fmt_unsigned_contract value p blen width m Hblen Hp)
      as (len & m' & Hrun & Hlen & Hm' & Hsize & Hnul & Hframe & Hstr).
    exists len, m'. rewrite padded_length in Hlen.
    do 7 (split; [done || lia|]).
    intros Hfits. split; [lia|].
    rewrite Hstr. apply take_ge. rewrite length_app, length_replicate. lia.
  - by apply digits_is_numeral.
  - intros m0 p Hp.
    destruct (fmt_unsigned_contract 1234 p 6 0 m0 ltac:(lia) Hp)
      as (len & m' & Hrun & Hlen & _ & _ & _ & _ & Hstr).
    vm_compute in Hlen. subst len. by exists m'.
  - intros m0 p Hp.
    destruct (fmt_unsigned_contract 7 p 6 3 m0 ltac:(lia) Hp)
      as (len & m' & Hrun & Hlen & _ & _ & _ & _ & Hstr).
    vm_compute in Hlen. subst len. by exists 3%nat, m'.
Qed.

Lemma fmt_unsigned_safe_witness :
  0 <= 7 <= ULONG_MAX /\
  exists (len : nat) (m' : mem),
    fmt_unsigned 7 (Some 0%nat) 6 3 [1; 1; 1; 1; 1; 1] = Some (len, m') /\
    (len <= 6 - 1)%nat /\
    m' !! (0 + len)%nat = Some CH_NUL /\
    string_at m' 0 = chars "007".
Proof.
  assert (Hv : 0 <= 7 <= ULONG_MAX) by (unfold ULONG_MAX; lia).
  split; [exact Hv|].
  destruct (fmt_unsigned_safe 7 6 3 [1; 1; 1; 1; 1; 1] Hv)
    as (_ & _ & Hbuf & _ & _ & _).
  destruct (Hbuf 0%nat ltac:(lia) ltac:(simpl; lia))
    as (len & m' & Hrun & Hlen & _ & Hnul & _ & _ & _ & Hfits).
  exists len, m'. split; [exact Hrun|]. split; [exact Hlen|].
  split; [exact Hnul|].
  exact (proj2 (Hfits ltac:(vm_compute; lia))).
Defined.

(** ** [fmt_double] *)

(** A run stored over the last character of a run. *)
Lemma list_inserts_over (m : mem) p cs c cs' :
  cs' <> [] ->
  list_inserts (p + length cs) cs' (list_inserts p (cs ++ [c]) m)
  = list_inserts p (cs ++ cs') m.
Proof.
  intros Hne. destruct cs' as [|c' cs']; [done|].
  rewrite <- list_inserts_snoc, <- list_inserts_append. cbn [list_inserts].
  rewrite <- list_insert_inserts_lt by lia.
  by rewrite list_insert_insert_eq.
Qed.

Lemma list_inserts_append_at (m : mem) p q cs cs' :
  q = (p + length cs)%nat ->
  list_inserts q cs' (list_inserts p cs m) = list_inserts p (cs ++ cs') m.
Proof. intros ->. apply list_inserts_append. Qed.

Lemma list_inserts_over_at (m : mem) p q cs c cs' :
  q = (p + length cs)%nat ->
  cs' <> [] ->
  list_inserts q cs' (list_inserts p (cs ++ [c]) m) = list_inserts p (cs ++ cs') m.
Proof. intros ->. apply list_inserts_over. Qed.

Section FmtDoubleSpec.

Context {D : Type} `{DoubleOps D}.

Lemma integral_text_length value blen :
  (length (integral_text value blen) <= pred blen)%nat.
Proof.
  unfold integral_text. destruct (0 <? blen)%nat; simpl; [|lia].
  rewrite length_take. lia.
Qed.

Lemma integral_text_no_nul value blen :
  Forall (fun c => c <> CH_NUL) (integral_text value blen).
Proof.
  unfold integral_text. destruct (0 <? blen)%nat; [|constructor].
  apply padded_no_nul.
Qed.

Lemma fractional_text_length value mult prec blen :
  (length (fractional_text value mult prec blen) <= blen)%nat.
Proof.
  unfold fractional_text.
  destruct (Nat.ltb_spec 0 prec), (Nat.ltb_spec 0 blen); simpl; try lia.
  destruct (Nat.ltb_spec 0 (pred blen)); simpl; [|lia].
  rewrite length_take. lia.
Qed.

Lemma fractional_text_no_nul value mult prec blen :
  Forall (fun c => c <> CH_NUL) (fractional_text value mult prec blen).
Proof.
  unfold fractional_text.
  destruct (_ && _); [|constructor]. constructor; [done|].
  destruct (0 <? pred blen)%nat; [|constructor]. apply padded_no_nul.
Qed.

(** The integral block stores its text and a null character, and leaves
    room for at least that null character. *)
Lemma integral_part_spec value roundingFactor buf blen (m : mem) :
  (buf + blen <= length m)%nat ->
  integral_part value roundingFactor buf blen m =
    let value' := if (0 <? blen)%nat then d_add value roundingFactor else value in
    let int := integral_text value' blen in
    Some (value', (buf + length int)%nat, (blen - length int)%nat,
          if (0 <? blen)%nat then list_inserts buf (int ++ [CH_NUL]) m else m).
Proof.
  intros Hbuf. unfold integral_part, integral_text.
  destruct (Nat.ltb_spec 0 blen) as [Hpos|Hzero]; cbn zeta.
  - rewrite fmt_unsigned_spec by lia. done.
  - simpl. by rewrite Nat.add_0_r, Nat.sub_0_r.
Qed.

(** The fractional block followed by the final store of the null
    character. *)
Lemma fractional_part_spec value mult prec buf blen (m : mem) :
  (buf + blen < length m)%nat ->
  fractional_part value mult prec buf blen m
    ≫= (fun '(buf', m') => store m' buf' CH_NUL)
  = Some (list_inserts buf (fractional_text value mult prec blen ++ [CH_NUL]) m).
Proof.
  intros Hbuf. unfold fractional_part, fractional_text.
  destruct ((0 <? prec)%nat && (0 <? blen)%nat) eqn:Hrun.
  - apply andb_true_iff in Hrun as [_ Hblen%Nat.ltb_lt].
    rewrite store_Some by lia. cbn [mbind option_bind].
    destruct (Nat.ltb_spec 0 (pred blen)) as [Hpos|Hzero].
    + rewrite fmt_unsigned_spec by (rewrite ?length_inserts; lia).
      cbn zeta. cbn [mbind option_bind].
      set (frac := take _ _).
      assert (length frac <= pred (pred blen))%nat
        by (unfold frac; rewrite length_take; lia).
      rewrite store_Some by (rewrite !length_inserts; lia).
      replace (S buf) with (buf + length [CH_DOT])%nat by (simpl; lia).
      rewrite list_inserts_append.
      replace (buf + length [CH_DOT] + length frac)%nat
        with (buf + length (CH_DOT :: frac))%nat by (simpl; lia).
      f_equal.
      by apply (list_inserts_over m buf (CH_DOT :: frac) CH_NUL [CH_NUL]).
    + cbn [mbind option_bind].
      rewrite store_Some by (rewrite length_inserts; lia).
      replace (S buf) with (buf + length [CH_DOT])%nat by (simpl; lia).
      by rewrite list_inserts_append.
  - cbn [mbind option_bind]. rewrite store_Some; [done|].
    apply andb_false_iff in Hrun. lia.
Qed.

(** [fmt_double] stores its text and a null character at [p]. *)
Lemma fmt_double_spec value prec p blen (m : mem) :
  (1 <= blen)%nat ->
  (p + blen <= length m)%nat ->
  fmt_double value prec (Some p) blen m =
    Some (list_inserts p (fmt_double_text value prec blen ++ [CH_NUL]) m).
Proof.
  intros Hblen Hp. unfold fmt_double, fmt_double_text.
  destruct (Nat.eqb_spec blen 0) as [|_]; [lia|].
  set (prec' := if (maxprec <? prec)%nat then maxprec else prec).
  destruct (Nat.ltb_spec 0 (pred blen)) as [Hpos|Hzero].
  2:{ cbn [mbind option_bind]. by rewrite store_Some by lia. }
  unfold sign_text.
  destruct (rounding_loop prec' d_half 1) as [roundingFactor mult] eqn:Hloop.
  destruct (d_ltb value d_zero).
  - rewrite store_Some by lia. cbn [mbind option_bind].
    rewrite integral_part_spec by (rewrite length_inserts; simpl; lia).
    cbn zeta. cbn [mbind option_bind length].
    replace (pred blen - 1)%nat with (pred (pred blen)) by lia.
    set (value' := if (0 <? pred (pred blen))%nat then _ else _).
    set (int := integral_text value' (pred (pred blen))).
    pose proof (integral_text_length value' (pred (pred blen))) as Hint.
    fold int in Hint.
    set (frac := fractional_text value' mult prec' _).
    rewrite fractional_part_spec.
    2:{ destruct (0 <? pred (pred blen))%nat; rewrite !length_inserts; lia. }
    f_equal. fold frac.
    clearbody int.
    destruct (Nat.ltb_spec 0 (pred (pred blen))).
    + rewrite (list_inserts_append_at m p (S p) [CH_MINUS]) by (simpl; lia).
      etrans.
      { apply (list_inserts_over_at m p _ (CH_MINUS :: int) CH_NUL
                 (frac ++ [CH_NUL])); [simpl; lia | by destruct frac]. }
      simpl. by rewrite <- ?app_assoc.
    + destruct int; [|simpl in Hint; lia].
      rewrite (list_inserts_append_at m p _ [CH_MINUS]) by (simpl; lia).
      simpl. by rewrite <- ?app_assoc.
  - cbn [mbind option_bind].
    rewrite integral_part_spec by lia.
    cbn zeta. cbn [mbind option_bind length].
    rewrite Nat.sub_0_r.
    set (value' := if (0 <? pred blen)%nat then _ else _).
    set (int := integral_text value' (pred blen)).
    pose proof (integral_text_length value' (pred blen)) as Hint.
    fold int in Hint.
    set (frac := fractional_text value' mult prec' _).
    rewrite fractional_part_spec.
    2:{ destruct (0 <? pred blen)%nat; rewrite ?length_inserts; lia. }
    f_equal. fold frac.
    destruct (Nat.ltb_spec 0 (pred blen)); [|lia].
    rewrite list_inserts_over by (by destruct frac).
    simpl. by rewrite <- ?app_assoc.
Qed.

End FmtDoubleSpec.

Section FmtDoubleContract.

Context {D : Type} `{DoubleOps D}.

Lemma fmt_double_text_length value prec blen :
  (length (fmt_double_text value prec blen) <= pred blen)%nat.
Proof.
  unfold fmt_double_text.
  destruct (Nat.ltb_spec 0 (pred blen)) as [Hpos|Hzero]; [|simpl; lia].
  destruct (rounding_loop _ d_half 1) as [roundingFactor mult].
  set (sign := sign_text value).
  assert (Hsign : (length sign <= 1)%nat)
    by (unfold sign, sign_text; destruct (d_ltb value d_zero); simpl; lia).
  set (value' := if (0 <? pred blen - length sign)%nat then _ else _).
  pose proof (integral_text_length value' (pred blen - length sign)) as Hint.
  pose proof (fractional_text_length value' mult
                (if (maxprec <? prec)%nat then maxprec else prec)
                (pred blen - length sign
                 - length (integral_text value' (pred blen - length sign))))
    as Hfrac.
  rewrite !length_app. lia.
Qed.

Lemma fmt_double_text_no_nul value prec blen :
  Forall (fun c => c <> CH_NUL) (fmt_double_text value prec blen).
Proof.
  unfold fmt_double_text.
  destruct (0 <? pred blen)%nat; [|constructor].
  destruct (rounding_loop _ d_half 1) as [roundingFactor mult].
  rewrite !Forall_app. split; [|split].
  - unfold sign_text. destruct (d_ltb value d_zero); repeat constructor. done.
  - apply integral_text_no_nul.
  - apply fractional_text_no_nul.
Qed.

(** The contract of [fmt_double] on a buffer of [blen] cells at [p]. *)
Lemma fmt_double_contract value prec p blen (m : mem) :
  (1 <= blen)%nat ->
  (p + blen <= length m)%nat ->
  exists m' : mem,
    fmt_double value prec (Some p) blen m = Some m' /\
    string_at m' p = fmt_double_text value prec blen /\
    m' !! (p + length (fmt_double_text value prec blen))%nat = Some CH_NUL /\
    (length (fmt_double_text value prec blen) < blen)%nat /\
    length m' = length m /\
    (forall i, (i < p)%nat \/ (p + blen <= i)%nat -> m' !! i = m !! i).
Proof.
  intros Hblen Hp. rewrite fmt_double_spec by done.
  pose proof (fmt_double_text_length value prec blen) as Hlen.
  set (text := fmt_double_text value prec blen) in *.
  exists (list_inserts p (text ++ [CH_NUL]) m).
  split; [done|]. split; [|split; [|split; [|split]]].
  - apply string_at_list_inserts; [apply fmt_double_text_no_nul | lia].
  - rewrite list_lookup_inserts by (rewrite ?length_app; simpl; lia).
    replace (p + length text - p)%nat with (length text + 0)%nat by lia.
    by rewrite lookup_app_r, Nat.add_comm, Nat.add_sub by lia.
  - lia.
  - apply length_inserts.
  - intros i [Hi|Hi].
    + by apply list_lookup_inserts_lt.
    + apply list_lookup_inserts_ge. rewrite length_app. simpl. lia.
Qed.


(** The text of a negative value is a minus sign and the text of its
    opposite in the rest of the buffer. *)
Lemma fmt_double_text_negative value prec blen :
  d_ltb value d_zero = true ->
  d_ltb (d_opp value) d_zero = false ->
  (2 <= blen)%nat ->
  fmt_double_text value prec blen =
    CH_MINUS :: fmt_double_text (d_opp value) prec (pred blen).
Proof.
  intros Hneg Hpos Hblen. unfold fmt_double_text, sign_text.
  rewrite Hneg, Hpos.
  destruct (Nat.ltb_spec 0 (pred blen)); [|lia].
  destruct (rounding_loop _ d_half 1) as [roundingFactor mult].
  cbn [length app]. rewrite Nat.sub_0_r.
  replace (pred blen - 1)%nat with (pred (pred blen)) by lia.
  destruct (Nat.ltb_spec 0 (pred (pred blen))) as [Hroom|Hfull]; [done|].
  replace (pred (pred blen)) with 0%nat by lia. simpl.
  unfold fractional_text. by rewrite andb_false_r.
Qed.

End FmtDoubleContract.

(** C10: for a value that is not negative and a precision above 0,
    [fmt_double] on a buffer of capacity 2 leaves the string ["."]: the
    decimal point is stored although no digit of the integral part fits,
    and the null character is the second cell of the buffer. *)
Theorem fmt_double_capacity_two {D : Type} `{DoubleOps D} (value : D)
    (prec p : nat) (m : mem) :
  d_ltb value d_zero = false ->
  (0 < prec)%nat ->
  (p + 2 <= length m)%nat ->
  exists m' : mem,
    fmt_double value prec (Some p) 2 m = Some m' /\
    string_at m' p = chars "." /\
    m' !! p = Some CH_DOT /\
    m' !! S p = Some CH_NUL /\
    length m' = length m /\
    (forall i, (i < p)%nat \/ (p + 2 <= i)%nat -> m' !! i = m !! i).
Proof.
  intros Hsign Hprec Hp.
  assert (Htext : fmt_double_text value prec 2 = [CH_DOT]).
  { unfold fmt_double_text, sign_text. rewrite Hsign.
    set (prec' := if (maxprec <? prec)%nat then maxprec else prec).
    assert (Hprec' : (0 < prec')%nat).
    { unfold prec', maxprec. destruct (6 <? prec)%nat; lia. }
    destruct prec' as [|n]; [lia|].
    destruct (rounding_loop (S n) d_half 1) as [roundingFactor mult].
    reflexivity. }
  destruct (fmt_double_contract value prec p 2 m ltac:(lia) Hp)
    as (m' & Hrun & Hstr & Hnul & _ & Hlen & Hframe).
  rewrite Htext in *. simpl in Hnul.
  exists m'. split; [done|]. split; [done|]. split; [|split; [|done]].
  - rewrite fmt_double_spec, Htext in Hrun by (done || lia).
    injection Hrun as <-.
    apply list_lookup_insert_eq. rewrite length_insert. lia.
  - by rewrite <- Nat.add_1_r.
Qed.

Lemma fmt_double_capacity_two_witness :
  exists m' : mem,
    @fmt_double spec_float binary32 (ieee_literal 24 128 314159 100000) 2
      (Some 0%nat) 2 [1; 1] = Some m' /\
    string_at m' 0 = chars "." /\
    m' !! 0%nat = Some CH_DOT /\
    m' !! 1%nat = Some CH_NUL /\
    length m' = length [1; 1] /\
    (forall i, (i < 0)%nat \/ (0 + 2 <= i)%nat -> m' !! i = [1; 1] !! i).
Proof.
  apply (@fmt_double_capacity_two spec_float binary32
           (ieee_literal 24 128 314159 100000) 2 0 [1; 1]).
  - vm_compute. reflexivity.
  - lia.
  - simpl. lia.
Defined.

(** ** [fmt_double] in exact arithmetic *)











(** The buffer of a negative value is the buffer of its opposite, formatted
    one cell further, with a minus sign in front. *)
Lemma fmt_double_negative {D : Type} `{DoubleOps D} (value : D)
    (prec p blen : nat) (m : mem) :
  d_ltb value d_zero = true ->
  d_ltb (d_opp value) d_zero = false ->
  (2 <= blen)%nat ->
  (p + blen <= length m)%nat ->
  exists m' m'' : mem,
    fmt_double value prec (Some p) blen m = Some m' /\
    fmt_double (d_opp value) prec (Some (S p)) (pred blen) m = Some m'' /\
    m' = <[p := CH_MINUS]> m'' /\
    string_at m' p = CH_MINUS :: string_at m'' (S p).
Proof.
  intros Hneg Hpos Hblen Hp.
  destruct (fmt_double_contract value prec p blen m ltac:(lia) Hp)
    as (m' & Hrun & Hstr & _).
  destruct (fmt_double_contract (d_opp value) prec (S p) (pred blen) m
              ltac:(lia) ltac:(lia)) as (m'' & Hrun' & Hstr' & _).
  exists m', m''. split; [done|]. split; [done|]. split.
  - rewrite fmt_double_spec in Hrun, Hrun' by lia.
    injection Hrun as <-. injection Hrun' as <-.
    by rewrite fmt_double_text_negative.
  - by rewrite Hstr, Hstr', fmt_double_text_negative.
Qed.






(** * Further properties *)

(** ** The key decoder *)

(** From position [k] on, the loop returns [NONE] or a position between
    [k] and the end of the table. *)
Lemma getKey_loop_range table input rest : forall k,
  0 <= k ->
  k + Z.of_nat (length rest) = NUM_KEYS table ->
  getKey_loop table input rest k = NONE \/
  k <= getKey_loop table input rest k < NUM_KEYS table.
Proof.
  induction rest as [|t rest IH]; intros k Hk Hlen; simpl in *.
  - left. destruct (Z.geb_spec k (NUM_KEYS table)); [done | lia].
  - destruct (input <? to_unsigned t).
    + right. lia.
    + destruct (IH (k + 1)) as [Hnone|Hin]; [lia | lia | by left | right; lia].
Qed.

(** X1: whatever the thresholds and the sample, [getKey] returns [NONE] or
    an index of the table, from 0 to [NUM_KEYS - 1]. *)
Theorem getKey_in_range (table : list Z) (input : Z) :
  Z.of_nat (length table) <= INT_MAX ->
  getKey table input = NONE \/ 0 <= getKey table input < NUM_KEYS table.
Proof.
  intros Hlen. apply getKey_loop_range; [lia|].
  unfold NUM_KEYS. rewrite to_int_small; lia.
Qed.

Lemma getKey_in_range_witness :
  getKey adcKeyVal 200 = NONE \/ 0 <= getKey adcKeyVal 200 < NUM_KEYS adcKeyVal.
Proof.
  apply (getKey_in_range adcKeyVal 200). vm_compute. discriminate.
Defined.

Lemma getKey_loop_monotone table rest s s' : forall k,
  0 <= k ->
  k + Z.of_nat (length rest) = NUM_KEYS table ->
  s <= s' ->
  getKey_loop table s' rest k <> NONE ->
  k <= getKey_loop table s rest k <= getKey_loop table s' rest k.
Proof.
  induction rest as [|t rest IH]; intros k Hk Hlen Hs Hkey; simpl in *.
  - destruct (Z.geb_spec k (NUM_KEYS table)); [done | lia].
  - destruct (Z.ltb_spec s' (to_unsigned t)), (Z.ltb_spec s (to_unsigned t));
      try lia.
    + destruct (getKey_loop_range table s' rest (k + 1)) as [Hnone|Hin];
        [lia | lia | done | lia].
    + specialize (IH (k + 1)). lia.
Qed.

(** X2: the decoder is monotone in the sample: when a sample decodes to a
    key, every smaller sample decodes to a key too, and to one that is not
    higher. *)
Theorem getKey_monotone (table : list Z) (s s' : Z) :
  Z.of_nat (length table) <= INT_MAX ->
  s <= s' ->
  getKey table s' <> NONE ->
  0 <= getKey table s <= getKey table s'.
Proof.
  intros Hlen Hs Hkey. apply getKey_loop_monotone; try done.
  unfold NUM_KEYS. rewrite to_int_small; lia.
Qed.

Lemma getKey_monotone_witness :
  0 <= getKey adcKeyVal 100 <= getKey adcKeyVal 400.
Proof.
  apply (getKey_monotone adcKeyVal 100 400).
  - vm_compute. discriminate.
  - lia.
  - vm_compute. discriminate.
Defined.

(** The bands of the configured table. *)
Lemma getKey_adcKeyVal s :
  0 <= s ->
  getKey adcKeyVal s =
    if s <? 30 then 0 else if s <? 150 then 1 else if s <? 360 then 2
    else if s <? 535 then 3 else if s <? 760 then 4 else NONE.
Proof.
  intros Hs. unfold getKey, adcKeyVal. cbn [getKey_loop].
  change (to_unsigned 30) with 30. change (to_unsigned 150) with 150.
  change (to_unsigned 360) with 360. change (to_unsigned 535) with 535.
  change (to_unsigned 760) with 760.
  repeat (case_match; [done|]). done.
Qed.

(** ** The keypad poller *)

Section PollerRuns.

Variable table : list Z.
Variable numSensors : Z.
Hypothesis numSensors_int : 1 <= numSensors <= INT_MAX.

(** Any number of invocations keeps the index in range. *)
Lemma run_in_range presses : forall st,
  0 <= sensorIndex st < numSensors ->
  0 <= sensorIndex (run table numSensors presses st) < numSensors.
Proof.
  induction presses as [|p presses IH]; intros st Hidx; [done|].
  apply IH. by apply poll_in_range.
Qed.

(** Confirmed Up presses add to the index, modulo the number of sensors. *)
Lemma run_ups presses : forall st,
  0 <= sensorIndex st < numSensors ->
  Forall (fun p => confirmed table (fst p) (snd p) KEY_UP) presses ->
  sensorIndex (run table numSensors presses st)
  = (sensorIndex st + Z.of_nat (length presses)) mod numSensors.
Proof.
  induction presses as [|p presses IH]; intros st Hidx Hups.
  - simpl. rewrite Z.add_0_r, Z.mod_small; lia.
  - apply Forall_cons in Hups as [Hp Hups].
    change (run table numSensors (p :: presses) st)
      with (run table numSensors presses
              (checkLCDKeypad table numSensors (fst p) (snd p) st)).
    rewrite IH; [|by apply poll_in_range|done].
    rewrite (poll_up table numSensors numSensors_int) by done.
    rewrite length_cons, Nat2Z.inj_succ.
    destruct (Z.geb_spec (sensorIndex st + 1) numSensors).
    + replace (sensorIndex st) with (numSensors - 1) by lia.
      replace (numSensors - 1 + Z.succ (Z.of_nat (length presses)))
        with (0 + Z.of_nat (length presses) + 1 * numSensors) by lia.
      by rewrite Z.mod_add by lia.
    + f_equal. lia.
Qed.

(** Confirmed Down presses subtract from the index, modulo the number of
    sensors. *)
Lemma run_downs presses : forall st,
  0 <= sensorIndex st < numSensors ->
  Forall (fun p => confirmed table (fst p) (snd p) KEY_DOWN) presses ->
  sensorIndex (run table numSensors presses st)
  = (sensorIndex st - Z.of_nat (length presses)) mod numSensors.
Proof.
  induction presses as [|p presses IH]; intros st Hidx Hdowns.
  - simpl. rewrite Z.sub_0_r, Z.mod_small; lia.
  - apply Forall_cons in Hdowns as [Hp Hdowns].
    change (run table numSensors (p :: presses) st)
      with (run table numSensors presses
              (checkLCDKeypad table numSensors (fst p) (snd p) st)).
    rewrite IH; [|by apply poll_in_range|done].
    rewrite (poll_down table numSensors numSensors_int) by done.
    rewrite length_cons, Nat2Z.inj_succ.
    destruct (Z.ltb_spec (sensorIndex st) 1).
    + replace (sensorIndex st) with 0 by lia.
      replace (numSensors - 1 - Z.of_nat (length presses))
        with (0 - Z.succ (Z.of_nat (length presses)) + 1 * numSensors) by lia.
      by rewrite Z.mod_add by lia.
    + f_equal. lia.
Qed.

End PollerRuns.

(** X3: any number of confirmed Up presses in a row moves the selection
    forwards by that number modulo the number of sensors, and confirmed
    Down presses move it backwards likewise; so as many presses as there
    are sensors, in either direction, select the same sensor again. *)
Theorem selection_counts_presses (table : list Z) (numSensors : Z)
    (presses : list (Z * Z)) (st : state) :
  1 <= numSensors <= INT_MAX ->
  0 <= sensorIndex st < numSensors ->
  (Forall (fun p => confirmed table (fst p) (snd p) KEY_UP) presses ->
   sensorIndex (run table numSensors presses st)
   = (sensorIndex st + Z.of_nat (length presses)) mod numSensors) /\
  (Forall (fun p => confirmed table (fst p) (snd p) KEY_DOWN) presses ->
   sensorIndex (run table numSensors presses st)
   = (sensorIndex st - Z.of_nat (length presses)) mod numSensors) /\
  (Z.of_nat (length presses) = numSensors ->
   Forall (fun p => confirmed table (fst p) (snd p) KEY_UP) presses \/
   Forall (fun p => confirmed table (fst p) (snd p) KEY_DOWN) presses ->
   sensorIndex (run table numSensors presses st) = sensorIndex st).
Proof.
  intros HN Hidx. split; [|split].
  - by apply run_ups.
  - by apply run_downs.
  - intros Hlen [Hups|Hdowns].
    + rewrite run_ups, Hlen by done.
      replace (sensorIndex st + numSensors)
        with (sensorIndex st + 1 * numSensors) by lia.
      rewrite Z.mod_add, Z.mod_small; lia.
    + rewrite run_downs, Hlen by done.
      replace (sensorIndex st - numSensors)
        with (sensorIndex st + (-1) * numSensors) by lia.
      rewrite Z.mod_add, Z.mod_small; lia.
Qed.

Lemma selection_counts_presses_witness :
  sensorIndex
    (run adcKeyVal NUM_SENSORS [(100, 100); (40, 120); (99, 31); (50, 60)]
       init_state)
  = (sensorIndex init_state + Z.of_nat 4) mod NUM_SENSORS.
Proof.
  refine (proj1 (selection_counts_presses adcKeyVal NUM_SENSORS
                   [(100, 100); (40, 120); (99, 31); (50, 60)] init_state
                   _ _) _).
  - vm_compute. split; discriminate.
  - vm_compute. split; [discriminate | reflexivity].
  - repeat constructor; vm_compute; discriminate.
Defined.

(** X4: a confirmed Up press followed by a confirmed Down press, or a
    Down followed by an Up, leaves the selection where it was. *)
Theorem up_down_cancel (table : list Z) (numSensors : Z) (p1 p2 : Z * Z)
    (st : state) :
  1 <= numSensors <= INT_MAX ->
  0 <= sensorIndex st < numSensors ->
  (confirmed table (fst p1) (snd p1) KEY_UP /\
   confirmed table (fst p2) (snd p2) KEY_DOWN) \/
  (confirmed table (fst p1) (snd p1) KEY_DOWN /\
   confirmed table (fst p2) (snd p2) KEY_UP) ->
  sensorIndex (run table numSensors [p1; p2] st) = sensorIndex st.
Proof.
  intros HN Hidx Hpresses. simpl.
  pose proof (poll_in_range table numSensors HN (fst p1) (snd p1) st Hidx) as Hmid.
  destruct Hpresses as [[H1 H2]|[H1 H2]].
  - rewrite (poll_down table numSensors HN) by done.
    rewrite (poll_up table numSensors HN) in * by done.
    destruct (Z.geb_spec (sensorIndex st + 1) numSensors);
      [destruct (Z.ltb_spec 0 1) | destruct (Z.ltb_spec (sensorIndex st + 1) 1)];
      lia.
  - rewrite (poll_up table numSensors HN) by done.
    rewrite (poll_down table numSensors HN) in * by done.
    destruct (Z.ltb_spec (sensorIndex st) 1).
    + destruct (Z.geb_spec (numSensors - 1 + 1) numSensors); lia.
    + destruct (Z.geb_spec (sensorIndex st - 1 + 1) numSensors); lia.
Qed.

Lemma up_down_cancel_witness :
  sensorIndex (run adcKeyVal NUM_SENSORS [(100, 100); (200, 200)] init_state)
  = sensorIndex init_state.
Proof.
  apply (up_down_cancel adcKeyVal NUM_SENSORS (100, 100) (200, 200) init_state).
  - vm_compute. split; discriminate.
  - vm_compute. split; [discriminate | reflexivity].
  - left. split; (split; [vm_compute; discriminate | reflexivity]).
Defined.

(** X5: with the table and the three sensors of the sketch, the readings
    alone say what an invocation does: the selection moves only when the
    first reading is below 760, forwards when the re-read is in
    [[30, 150)] and backwards when it is in [[150, 360)]. *)
Theorem selection_by_readings (r1 r2 : Z) (st : state) :
  0 <= r1 <= INT_MAX ->
  0 <= r2 <= INT_MAX ->
  0 <= sensorIndex st < NUM_SENSORS ->
  sensorIndex (checkLCDKeypad adcKeyVal NUM_SENSORS r1 r2 st) =
    if 760 <=? r1 then sensorIndex st
    else if (30 <=? r2) && (r2 <? 150) then (sensorIndex st + 1) mod 3
    else if (150 <=? r2) && (r2 <? 360) then (sensorIndex st - 1) mod 3
    else sensorIndex st.
Proof.
  intros Hr1 Hr2 Hidx. change NUM_SENSORS with 3 in *.
  rewrite (poll_index adcKeyVal 3) by (unfold INT_MAX; lia).
  rewrite !to_unsigned_small by (unfold INT_MAX, UINT_MAX in *; lia).
  rewrite !getKey_adcKeyVal by lia. unfold NONE, KEY_UP, KEY_DOWN.
  destruct (Z.leb_spec 760 r1).
  - rewrite (proj2 (Z.ltb_ge r1 30)), (proj2 (Z.ltb_ge r1 150)),
      (proj2 (Z.ltb_ge r1 360)), (proj2 (Z.ltb_ge r1 535)),
      (proj2 (Z.ltb_ge r1 760)) by lia.
    reflexivity.
  - assert (Hkey1 : ((if r1 <? 30 then 0 else if r1 <? 150 then 1
                      else if r1 <? 360 then 2 else if r1 <? 535 then 3
                      else if r1 <? 760 then 4 else -1) =? -1) = false).
    { destruct (Z.ltb_spec r1 30), (Z.ltb_spec r1 150), (Z.ltb_spec r1 360),
        (Z.ltb_spec r1 535), (Z.ltb_spec r1 760); try done. lia. }
    rewrite Hkey1.
    destruct (Z.leb_spec 30 r2), (Z.ltb_spec r2 30), (Z.ltb_spec r2 150),
      (Z.leb_spec 150 r2), (Z.ltb_spec r2 360), (Z.ltb_spec r2 535),
      (Z.ltb_spec r2 760); try lia; cbn.
    all: try done.
    + destruct (Z.geb_spec (sensorIndex st + 1) 3).
      * by replace (sensorIndex st) with 2 by lia.
      * rewrite Z.mod_small; lia.
    + destruct (Z.ltb_spec (sensorIndex st) 1).
      * by replace (sensorIndex st) with 0 by lia.
      * rewrite Z.mod_small; lia.
Qed.

Lemma selection_by_readings_witness :
  sensorIndex (checkLCDKeypad adcKeyVal NUM_SENSORS 100 200 init_state) = 2.
Proof.
  apply (selection_by_readings 100 200 init_state).
  - unfold INT_MAX. lia.
  - unfold INT_MAX. lia.
  - vm_compute. split; [discriminate | reflexivity].
Defined.

(** ** [fmt_unsigned] *)

(** Leading zeros do not change the number a numeral denotes. *)
Lemma decimal_value_zeros n ds :
  decimal_value (replicate n CH_ZERO ++ ds) = decimal_value ds.
Proof.
  unfold decimal_value. rewrite fold_left_app. f_equal.
  induction n as [|n IH]; [done|].
  cbn [replicate fold_left].
  by replace (10 * 0 + (CH_ZERO - CH_ZERO)) with 0 by (unfold CH_ZERO; lia).
Qed.

(** X6: a round trip.  When the buffer has room for the whole padded
    numeral, the string that [fmt_unsigned] leaves, read back as a decimal
    number, is the value, whatever the width. *)
Theorem fmt_unsigned_round_trip (value : Z) (p blen width : nat) (m : mem) :
  0 <= value <= ULONG_MAX ->
  (width `max` length (digits value) < blen)%nat ->
  (p + blen <= length m)%nat ->
  exists (len : nat) (m' : mem),
    fmt_unsigned value (Some p) blen width m = Some (len, m') /\
    decimal_value (string_at m' p) = value.
Proof.
  intros Hv Hfits Hp.
  destruct (fmt_unsigned_contract value p blen width m ltac:(lia) Hp)
    as (len & m' & Hrun & Hlen & _ & _ & _ & _ & Hstr).
  exists len, m'. split; [done|].
  rewrite padded_length in Hlen.
  rewrite Hstr, take_ge by (rewrite padded_length; lia).
  unfold padded. rewrite decimal_value_zeros.
  by destruct (digits_is_numeral value Hv) as (_ & Hval & _).
Qed.

Lemma fmt_unsigned_round_trip_witness :
  exists (len : nat) (m' : mem),
    fmt_unsigned 7 (Some 0%nat) 6 3 [1; 1; 1; 1; 1; 1] = Some (len, m') /\
    decimal_value (string_at m' 0) = 7.
Proof.
  apply (fmt_unsigned_round_trip 7 0 6 3 [1; 1; 1; 1; 1; 1]).
  - unfold ULONG_MAX. lia.
  - vm_compute. lia.
  - simpl. lia.
Defined.

(** X7: the number [fmt_unsigned] returns is the length of the string it
    leaves: the smaller of [blen - 1] and the length of the padded numeral;
    and the string consists of decimal digits only. *)
Theorem fmt_unsigned_returns_length (value : Z) (p blen width : nat) (m : mem) :
  (1 <= blen)%nat ->
  (p + blen <= length m)%nat ->
  exists (len : nat) (m' : mem),
    fmt_unsigned value (Some p) blen width m = Some (len, m') /\
    length (string_at m' p) = len /\
    len = ((blen - 1) `min` (width `max` length (digits value)))%nat /\
    Forall (fun c => CH_ZERO <= c <= CH_ZERO + 9) (string_at m' p).
Proof.
  intros Hblen Hp.
  destruct (fmt_unsigned_contract value p blen width m Hblen Hp)
    as (len & m' & Hrun & Hlen & _ & _ & _ & _ & Hstr).
  exists len, m'. split; [done|]. rewrite Hstr.
  split; [|split].
  - rewrite length_take. lia.
  - rewrite Hlen, padded_length. lia.
  - apply Forall_take, padded_chars.
Qed.

Lemma fmt_unsigned_returns_length_witness :
  exists (len : nat) (m' : mem),
    fmt_unsigned 12345 (Some 0%nat) 3 0 [1; 1; 1] = Some (len, m') /\
    length (string_at m' 0) = len /\
    len = ((3 - 1) `min` (0 `max` length (digits 12345)))%nat /\
    Forall (fun c => CH_ZERO <= c <= CH_ZERO + 9) (string_at m' 0).
Proof.
  apply (fmt_unsigned_returns_length 12345 0 3 0 [1; 1; 1]).
  - lia.
  - simpl. lia.
Defined.

Lemma rev_digits_count fuel : forall value,
  0 < value < 10 ^ Z.of_nat fuel ->
  10 ^ (Z.of_nat (length (rev_digits fuel value)) - 1) <= value
  < 10 ^ Z.of_nat (length (rev_digits fuel value)).
Proof.
  induction fuel as [|fuel IH]; intros value Hv.
  - simpl in Hv. lia.
  - cbn [rev_digits].
    rewrite Nat2Z.inj_succ, Z.pow_succ_r in Hv by lia.
    pose proof (Z.div_mod value 10 ltac:(lia)) as Hdm.
    pose proof (Z.mod_pos_bound value 10 ltac:(lia)).
    destruct (Z.eqb_spec (value / 10) 0) as [Hz|Hnz].
    + simpl. lia.
    + assert (Hq : 0 < value / 10 < 10 ^ Z.of_nat fuel).
      { split; [|apply Z.div_lt_upper_bound; lia].
        pose proof (Z.div_pos value 10). lia. }
      specialize (IH (value / 10) Hq).
      rewrite length_cons, Nat2Z.inj_succ.
      set (l := length (rev_digits fuel (value / 10))) in *.
      assert (Hl : (0 < l)%nat).
      { destruct l; [|lia]. simpl in IH. lia. }
      clearbody l.
      replace (Z.succ (Z.of_nat l) - 1) with (Z.succ (Z.of_nat l - 1)) by lia.
      rewrite !Z.pow_succ_r by lia. lia.
Qed.

(** The number of digits of a numeral, by the size of the value. *)
Lemma digits_length_bounds (value : Z) :
  0 <= value <= ULONG_MAX ->
  (1 <= length (digits value) <= 10)%nat /\
  (value = 0 -> digits value = [CH_ZERO]) /\
  (0 < value ->
   10 ^ (Z.of_nat (length (digits value)) - 1) <= value
   < 10 ^ Z.of_nat (length (digits value))).
Proof.
  intros Hv. split; [apply digits_length|]. split.
  - by intros ->.
  - intros Hpos. rewrite digits_rev_digits, length_reverse.
    apply rev_digits_count. unfold ULONG_MAX, DBUF_SIZE in *. simpl. lia.
Qed.

(** X8: the numeral has as many digits as the value needs and no more: a
    positive value with [n] digits lies between [10 ^ (n - 1)] and
    [10 ^ n], the numeral of 0 is ["0"], and no [unsigned long] has more
    than 10 digits. *)
Theorem digits_count (value : Z) :
  0 <= value <= ULONG_MAX ->
  (1 <= length (digits value) <= 10)%nat /\
  (value = 0 -> digits value = [CH_ZERO]) /\
  (0 < value ->
   10 ^ (Z.of_nat (length (digits value)) - 1) <= value
   < 10 ^ Z.of_nat (length (digits value))).
Proof. apply digits_length_bounds. Qed.

Lemma digits_count_witness :
  (1 <= length (digits 12345) <= 10)%nat /\
  (12345 = 0 -> digits 12345 = [CH_ZERO]) /\
  (0 < 12345 ->
   10 ^ (Z.of_nat (length (digits 12345)) - 1) <= 12345
   < 10 ^ Z.of_nat (length (digits 12345))).
Proof.
  apply (digits_count 12345). unfold ULONG_MAX. lia.
Defined.

(** The second loop on a buffer of any length: it faults exactly when it
    has characters to store and they do not fit. *)
Lemma copy_loop_fits blen : forall idx padding c dbuf buf len (m : mem),
  (1 <= blen)%nat ->
  (idx <= length dbuf)%nat ->
  (padding <> 0%nat -> c = CH_ZERO) ->
  copy_loop blen idx padding c dbuf buf len m =
    let out := take (pred blen)
                 (replicate padding CH_ZERO ++ reverse (take idx dbuf)) in
    if decide (length out = 0 \/ buf + length out <= length m)%nat
    then Some ((buf + length out)%nat, (len + length out)%nat,
               list_inserts buf out m)
    else None.
Proof.
  induction blen as [|blen IH]; intros idx padding c dbuf buf len m Hblen Hidx Hc;
    [lia|].
  destruct blen as [|blen'].
  { cbn [copy_loop pred take length list_inserts]. cbn zeta.
    rewrite decide_True by (by left). by rewrite !Nat.add_0_r. }
  rewrite copy_loop_step. cbn [pred]. cbn zeta.
  destruct padding as [|padding]; [destruct idx as [|idx]|].
  - cbn [Nat.eqb andb replicate app].
    rewrite take_0, reverse_nil, take_nil. cbn [length list_inserts].
    rewrite decide_True by (by left). by rewrite !Nat.add_0_r.
  - cbn [Nat.eqb andb negb pred].
    destruct (lookup_lt_is_Some_2 dbuf idx ltac:(lia)) as [x Hx].
    rewrite Hx. cbn [default].
    rewrite (take_S_r _ _ _ Hx), reverse_snoc.
    cbn [replicate app pred take length].
    unfold store. destruct (decide (buf < length m)%nat) as [Hin|Hout].
    + rewrite IH; [|lia|lia|done]. cbn zeta. cbn [pred]. rewrite length_insert.
      cbn [replicate app].
      set (out := take blen' (reverse (take idx dbuf))).
      clearbody out. cbn [length].
      destruct (decide (length out = 0 \/ S buf + length out <= length m)%nat)
        as [Hfit|Hnofit].
      * rewrite decide_True by lia. cbn [list_inserts].
        rewrite <- list_insert_inserts_lt by lia.
        by rewrite !Nat.add_succ_r.
      * by rewrite decide_False by lia.
    + cbn [length]. by rewrite decide_False by lia.
  - rewrite (Hc ltac:(done)).
    replace ((idx =? 0)%nat && (S padding =? 0)%nat) with false
      by (by rewrite andb_false_r).
    cbn [Nat.eqb negb pred].
    cbn [replicate app pred take length].
    unfold store. destruct (decide (buf < length m)%nat) as [Hin|Hout].
    + rewrite IH; [|lia|lia|done]. cbn zeta. cbn [pred]. rewrite length_insert.
      set (out := take blen' (replicate padding CH_ZERO ++ reverse (take idx dbuf))).
      clearbody out. cbn [length].
      destruct (decide (length out = 0 \/ S buf + length out <= length m)%nat)
        as [Hfit|Hnofit].
      * rewrite decide_True by lia. cbn [list_inserts].
        rewrite <- list_insert_inserts_lt by lia.
        by rewrite !Nat.add_succ_r.
      * by rewrite decide_False by lia.
    + cbn [length]. by rewrite decide_False by lia.
Qed.

(** X9: [fmt_unsigned] trusts [blen] (0xffff by default) and checks nothing
    else: it stores the text and one null character, so it stays inside a
    buffer of fewer than [blen] cells when these fit, and it stores past
    the end of the buffer when they do not. *)
Theorem fmt_unsigned_trusts_blen (value : Z) (p blen width : nat) (m : mem) :
  (1 <= blen)%nat ->
  let n := ((blen - 1) `min` (width `max` length (digits value)))%nat in
  ((p + n < length m)%nat ->
   fmt_unsigned value (Some p) blen width m =
     Some (n, list_inserts p (take n (padded value width) ++ [CH_NUL]) m)) /\
  ((length m <= p + n)%nat ->
   fmt_unsigned value (Some p) blen width m = None).
Proof.
  intros Hblen n.
  assert (Hrun :
    fmt_unsigned value (Some p) blen width m =
      if decide (p + n < length m)%nat
      then Some (n, list_inserts p (take n (padded value width) ++ [CH_NUL]) m)
      else None).
  { unfold fmt_unsigned.
    destruct (Nat.eqb_spec blen 0) as [|_]; [lia|].
    rewrite digit_loop_digits.
    set (rd := rev_digits DBUF_SIZE value).
    replace (if (length rd <? width)%nat then (width - length rd)%nat else 0%nat)
      with (width - length rd)%nat
      by (destruct (Nat.ltb_spec (length rd) width); lia).
    rewrite copy_loop_fits; [|lia|rewrite length_app; lia|done].
    rewrite take_app_length. cbn zeta.
    assert (Hpad : replicate (width - length rd) CH_ZERO ++ reverse rd
                   = padded value width).
    { unfold padded. by rewrite digits_rev_digits, length_reverse. }
    rewrite Hpad.
    assert (Hn : length (take (pred blen) (padded value width)) = n).
    { rewrite length_take, padded_length. unfold n. lia. }
    assert (Htake : take (pred blen) (padded value width)
                    = take n (padded value width)).
    { clear Hn. unfold n. rewrite <- (padded_length value width).
      destruct (Nat.le_gt_cases (length (padded value width)) (pred blen)).
      - by rewrite !take_ge by lia.
      - f_equal. lia. }
    rewrite Hn, Htake.
    destruct (decide (n = 0 \/ p + n <= length m)%nat) as [Hfit|Hnofit].
    - cbn [mbind option_bind]. unfold store. rewrite length_inserts.
      destruct (decide (p + n < length m)%nat); cbn [mbind option_bind]; [|done].
      assert (Hn' : length (take n (padded value width)) = n)
        by (by rewrite <- Htake).
      by rewrite <- list_inserts_snoc, Hn'.
    - cbn [mbind option_bind]. by rewrite decide_False by lia. }
  rewrite Hrun. split; intros Hcase.
  - by rewrite decide_True.
  - by rewrite decide_False by lia.
Qed.

Lemma fmt_unsigned_trusts_blen_witness :
  fmt_unsigned 12345 (Some 0%nat) 100 0 [1; 1; 1; 1; 1; 1]
  = Some (5%nat, chars "12345" ++ [CH_NUL]) /\
  fmt_unsigned 12345 (Some 0%nat) 100 0 [1; 1; 1; 1; 1] = None.
Proof.
  split.
  - apply (proj1 (fmt_unsigned_trusts_blen 12345 0 100 0 [1; 1; 1; 1; 1; 1]
                    ltac:(lia))).
    vm_compute. lia.
  - apply (proj2 (fmt_unsigned_trusts_blen 12345 0 100 0 [1; 1; 1; 1; 1]
                    ltac:(lia))).
    vm_compute. lia.
Defined.

(** ** [fmt_double] *)

(** X10: whatever the value, the precision and the arithmetic of [double],
    [fmt_double] on a buffer of [blen] cells leaves a string of fewer than
    [blen] characters with its null character, and changes no cell outside
    the buffer; without a buffer, or with capacity 0, it changes nothing. *)
Theorem fmt_double_safe {D : Type} `{DoubleOps D} (value : D)
    (prec p blen : nat) (m : mem) :
  fmt_double value prec None blen m = Some m /\
  fmt_double value prec (Some p) 0 m = Some m /\
  ((1 <= blen)%nat ->
   (p + blen <= length m)%nat ->
   exists m' : mem,
     fmt_double value prec (Some p) blen m = Some m' /\
     (length (string_at m' p) < blen)%nat /\
     m' !! (p + length (string_at m' p))%nat = Some CH_NUL /\
     length m' = length m /\
     (forall i, (i < p)%nat \/ (p + blen <= i)%nat -> m' !! i = m !! i)).
Proof.
  split; [done|]. split; [done|]. intros Hblen Hp.
  destruct (fmt_double_contract value prec p blen m Hblen Hp)
    as (m' & Hrun & Hstr & Hnul & Hlen & Hsize & Hframe).
  exists m'. by rewrite Hstr.
Qed.

Lemma fmt_double_safe_witness :
  exists m' : mem,
    @fmt_double spec_float binary32 (ieee_literal 24 128 314159 100000) 2
      (Some 1%nat) 4 [1; 1; 1; 1; 1; 1] = Some m' /\
    (length (string_at m' 1) < 4)%nat /\
    m' !! (1 + length (string_at m' 1))%nat = Some CH_NUL /\
    length m' = length [1; 1; 1; 1; 1; 1] /\
    (forall i, (i < 1)%nat \/ (1 + 4 <= i)%nat ->
               m' !! i = [1; 1; 1; 1; 1; 1] !! i).
Proof.
  apply (@fmt_double_safe spec_float binary32
           (ieee_literal 24 128 314159 100000) 2 1 4 [1; 1; 1; 1; 1; 1]).
  - lia.
  - simpl. lia.
Defined.

(** X11: the string that [fmt_double] leaves is a minus sign exactly for a
    negative value (when the buffer has room for a character), then
    digits, then possibly a point followed by digits; with precision 0
    there is no point. *)
Theorem fmt_double_shape {D : Type} `{DoubleOps D} (value : D)
    (prec p blen : nat) (m : mem) :
  (2 <= blen)%nat ->
  (p + blen <= length m)%nat ->
  exists (m' : mem) (int frac : list Z),
    fmt_double value prec (Some p) blen m = Some m' /\
    string_at m' p =
      (if d_ltb value d_zero then [CH_MINUS] else []) ++ int ++ frac /\
    Forall is_digit int /\
    (frac = [] \/ exists ds, frac = CH_DOT :: ds /\ Forall is_digit ds) /\
    (prec = 0%nat -> frac = []).
Proof.
  intros Hblen Hp.
  destruct (fmt_double_contract value prec p blen m ltac:(lia) Hp)
    as (m' & Hrun & Hstr & _).
  unfold fmt_double_text, sign_text in Hstr.
  destruct (Nat.ltb_spec 0 (pred blen)); [|lia].
  destruct (rounding_loop _ d_half 1) as [roundingFactor mult].
  eexists m', _, _. split; [done|]. split; [exact Hstr|].
  split; [|split].
  - unfold integral_text. destruct (0 <? _)%nat; [|constructor].
    apply Forall_take, padded_chars.
  - unfold fractional_text. destruct (_ && _); [|by left].
    right. eexists. split; [done|].
    destruct (0 <? pred _)%nat; [|constructor].
    apply Forall_take, padded_chars.
  - intros ->. unfold fractional_text.
    by replace (maxprec <? 0)%nat with false by done.
Qed.

Lemma fmt_double_shape_witness :
  exists (m' : mem) (int frac : list Z),
    @fmt_double spec_float binary32 (ieee_literal 24 128 (-314159) 100000) 2
      (Some 0%nat) 8 (replicate 8 1) = Some m' /\
    string_at m' 0 =
      (if @d_ltb spec_float binary32 (ieee_literal 24 128 (-314159) 100000)
            (@d_zero spec_float binary32)
       then [CH_MINUS] else []) ++ int ++ frac /\
    Forall is_digit int /\
    (frac = [] \/ exists ds, frac = CH_DOT :: ds /\ Forall is_digit ds) /\
    (2%nat = 0%nat -> frac = []).
Proof.
  apply (@fmt_double_shape spec_float binary32
           (ieee_literal 24 128 (-314159) 100000) 2 0 8 (replicate 8 1)).
  - lia.
  - simpl. lia.
Defined.

(** X12: tiny buffers.  With capacity 1 [fmt_double] leaves the empty
    string; for a negative value, capacity 2 leaves a lone ["-"] and, with
    a precision above 0, capacity 3 leaves ["-."], without any digit. *)
Theorem fmt_double_tiny_buffers {D : Type} `{DoubleOps D} (value : D)
    (prec p : nat) (m : mem) :
  ((p + 1 <= length m)%nat ->
   exists m' : mem,
     fmt_double value prec (Some p) 1 m = Some m' /\ string_at m' p = []) /\
  (d_ltb value d_zero = true ->
   (p + 2 <= length m)%nat ->
   exists m' : mem,
     fmt_double value prec (Some p) 2 m = Some m' /\
     string_at m' p = chars "-") /\
  (d_ltb value d_zero = true ->
   (0 < prec)%nat ->
   (p + 3 <= length m)%nat ->
   exists m' : mem,
     fmt_double value prec (Some p) 3 m = Some m' /\
     string_at m' p = chars "-.").
Proof.
  split; [|split].
  - intros Hp.
    destruct (fmt_double_contract value prec p 1 m ltac:(lia) Hp)
      as (m' & Hrun & Hstr & _).
    by exists m'.
  - intros Hneg Hp.
    destruct (fmt_double_contract value prec p 2 m ltac:(lia) Hp)
      as (m' & Hrun & Hstr & _).
    exists m'. split; [done|]. rewrite Hstr.
    unfold fmt_double_text, sign_text. rewrite Hneg.
    destruct (rounding_loop _ d_half 1) as [roundingFactor mult].
    cbn [pred Nat.ltb Nat.leb length Nat.sub integral_text app].
    unfold fractional_text. by rewrite andb_false_r.
  - intros Hneg Hprec Hp.
    destruct (fmt_double_contract value prec p 3 m ltac:(lia) Hp)
      as (m' & Hrun & Hstr & _).
    exists m'. split; [done|]. rewrite Hstr.
    unfold fmt_double_text, sign_text. rewrite Hneg.
    set (prec' := if (maxprec <? prec)%nat then maxprec else prec).
    assert (Hprec' : (0 < prec')%nat).
    { unfold prec', maxprec. destruct (6 <? prec)%nat; lia. }
    destruct prec' as [|n]; [lia|].
    destruct (rounding_loop (S n) d_half 1) as [roundingFactor mult].
    reflexivity.
Qed.

Lemma fmt_double_tiny_buffers_witness :
  (exists m' : mem,
     @fmt_double spec_float binary32 (ieee_literal 24 128 (-5) 2) 1
       (Some 0%nat) 2 [1; 1] = Some m' /\
     string_at m' 0 = chars "-") /\
  (exists m' : mem,
     @fmt_double spec_float binary32 (ieee_literal 24 128 (-5) 2) 1
       (Some 0%nat) 3 [1; 1; 1] = Some m' /\
     string_at m' 0 = chars "-.").
Proof.
  destruct (@fmt_double_tiny_buffers spec_float binary32
              (ieee_literal 24 128 (-5) 2) 1 0 [1; 1]) as (_ & Htwo & _).
  destruct (@fmt_double_tiny_buffers spec_float binary32
              (ieee_literal 24 128 (-5) 2) 1 0 [1; 1; 1]) as (_ & _ & Hthree).
  split.
  - apply Htwo; [vm_compute; reflexivity | simpl; lia].
  - apply Hthree; [vm_compute; reflexivity | lia | simpl; lia].
Defined.

(** In the IEEE formats the opposite of a negative value is not negative. *)
Lemma ieee_opp_negative (x : spec_float) :
  SFltb x (S754_zero false) = true ->
  SFltb (SFopp x) (S754_zero false) = false.
Proof. by destruct x as [[]|[]| |[] mx ex]. Qed.

(** X13: in IEEE arithmetic, whatever the format, the string of a negative
    value is a minus sign followed by the string that [fmt_double] leaves
    for the opposite value in the rest of the buffer. *)
Theorem fmt_double_ieee_negative (prec emax : Z) (value : spec_float)
    (p n blen : nat) (m : mem) :
  SFltb value (S754_zero false) = true ->
  (2 <= blen)%nat ->
  (p + blen <= length m)%nat ->
  exists m' m'' : mem,
    @fmt_double spec_float (ieee_double prec emax) value n (Some p) blen m
    = Some m' /\
    @fmt_double spec_float (ieee_double prec emax) (SFopp value) n
      (Some (S p)) (pred blen) m = Some m'' /\
    m' = <[p := CH_MINUS]> m'' /\
    string_at m' p = CH_MINUS :: string_at m'' (S p).
Proof.
  intros Hneg Hblen Hp.
  apply (@fmt_double_negative spec_float (ieee_double prec emax));
    [done | by apply ieee_opp_negative | done | done].
Qed.

Lemma fmt_double_ieee_negative_witness :
  exists m' m'' : mem,
    @fmt_double spec_float (ieee_double 24 128) (ieee_literal 24 128 (-5) 2) 1
      (Some 0%nat) 8 (replicate 8 1) = Some m' /\
    @fmt_double spec_float (ieee_double 24 128)
      (SFopp (ieee_literal 24 128 (-5) 2)) 1 (Some 1%nat) (pred 8)
      (replicate 8 1) = Some m'' /\
    m' = <[0%nat := CH_MINUS]> m'' /\
    string_at m' 0 = CH_MINUS :: string_at m'' 1.
Proof.
  apply (fmt_double_ieee_negative 24 128 (ieee_literal 24 128 (-5) 2) 0 1 8
           (replicate 8 1)).
  - vm_compute. reflexivity.
  - lia.
  - simpl. lia.
Defined.

(** ** [fmt_double] in exact arithmetic *)







(** ** The display refresher *)

(** Every reading of the converter is in the list of readings. *)
Lemma elem_of_readings (r : Z) : 0 <= r <= ADC_MAX -> r ∈ readings.
Proof.
  intros Hr. unfold readings, ADC_MAX in *.
  apply list_elem_of_fmap. exists (Z.to_nat r). split; [lia|].
  apply elem_of_seq. lia.
Qed.

(** The temperature handler on a buffer of 32 cells, for the sensor at
    index 0. *)
Lemma tempSensorHandler_trace {D : Type} `{DoubleOps D} `{SensorOps D}
    (e : env) (value0 : mem) :
  length value0 = 32%nat ->
  tempSensorHandler_run e value0 0 =
    Some [lcd_printIn (chars "[Temperature]");
          lcd_cursorTo 2 0;
          lcd_printIn (chars "Value: ");
          lcd_printIn (fmt_double_text (getCelsius (getVoltage e 2)) 2 32);
          lcd_printIn (chars " C")].
Proof.
  intros Hlen. unfold tempSensorHandler_run.
  change (sensor_at 0) with (Some {| pin := 2; handler := tempSensorHandler |}).
  cbn [mbind option_bind pin].
  destruct (fmt_double_contract (getCelsius (getVoltage e 2)) 2 0 32 value0
              ltac:(lia) ltac:(lia)) as (m' & Hrun & Hstr & _).
  rewrite Hrun. cbn [mbind option_bind]. by rewrite Hstr.
Qed.

Lemma write_string_Some (m : mem) (cs : list Z) :
  (length cs < length m)%nat ->
  exists m' : mem, write_string m cs = Some m'.
Proof.
  intros Hlen. unfold write_string. rewrite decide_True by done. eauto.
Qed.

(** X16: after any sequence of keypad invocations from the initial state,
    a refresh of the display reads a descriptor inside [sensors], calls its
    handler without a fault, and starts with [lcd.clear()], the header of
    the selected sensor, [lcd.cursorTo(2, 0)] and ["Value: "]. *)
Theorem updateLCDScreen_dispatch {D : Type} `{DoubleOps D} `{SensorOps D}
    (e : env) (value0 : mem) (presses : list (Z * Z)) :
  length value0 = 32%nat ->
  (forall v, (length (sprintf_d e v) < 32)%nat) ->
  exists (s : sensorT) (ops : list lcd_op),
    sensor_at (sensorIndex (run adcKeyVal NUM_SENSORS presses init_state))
    = Some s /\
    updateLCDScreen e value0 (run adcKeyVal NUM_SENSORS presses init_state)
    = Some (lcd_clear
              :: lcd_printIn (header (handler s))
              :: lcd_cursorTo 2 0
              :: lcd_printIn (chars "Value: ")
              :: ops).
Proof.
  intros Hlen Hsprintf.
  pose proof (run_in_range adcKeyVal NUM_SENSORS
                ltac:(vm_compute; split; discriminate) presses init_state
                ltac:(vm_compute; split; [discriminate | reflexivity]))
    as Hidx.
  set (st := run adcKeyVal NUM_SENSORS presses init_state) in *.
  change NUM_SENSORS with 3 in Hidx. unfold updateLCDScreen.
  assert (Hcases : sensorIndex st = 0 \/ sensorIndex st = 1 \/ sensorIndex st = 2)
    by lia.
  destruct Hcases as [Hi | [Hi | Hi]]; rewrite Hi.
  - eexists _, _. split; [reflexivity|].
    change (sensor_at 0) with (Some {| pin := 2; handler := tempSensorHandler |}).
    cbn [mbind option_bind handler call_handler].
    by rewrite tempSensorHandler_trace.
  - destruct (write_string_Some value0 (sprintf_d e (analogRead e 3)))
      as [m' Hw]; [rewrite Hlen; apply Hsprintf|].
    exists {| pin := 3; handler := lightSensorHandler |},
      [lcd_printIn (string_at m' 0)].
    split; [reflexivity|].
    change (sensor_at 1) with (Some {| pin := 3; handler := lightSensorHandler |}).
    cbn [mbind option_bind handler call_handler]. unfold lightSensorHandler_run.
    change (sensor_at 1) with (Some {| pin := 3; handler := lightSensorHandler |}).
    cbn [mbind option_bind pin]. rewrite Hw. reflexivity.
  - destruct (write_string_Some value0
                (if digitalRead e 3 =? HIGH then chars "ON" else chars "OFF"))
      as [m' Hw]; [rewrite Hlen; destruct (_ =? _); simpl; lia|].
    exists {| pin := 3; handler := pirSensorHandler |},
      [lcd_printIn (string_at m' 0)].
    split; [reflexivity|].
    change (sensor_at 2) with (Some {| pin := 3; handler := pirSensorHandler |}).
    cbn [mbind option_bind handler call_handler]. unfold pirSensorHandler_run.
    change (sensor_at 2) with (Some {| pin := 3; handler := pirSensorHandler |}).
    cbn [mbind option_bind pin]. rewrite Hw. reflexivity.
Qed.

Lemma updateLCDScreen_dispatch_witness :
  exists (s : sensorT) (ops : list lcd_op),
    sensor_at (sensorIndex (run adcKeyVal NUM_SENSORS [(100, 100)] init_state))
    = Some s /\
    @updateLCDScreen spec_float binary32 (ieee_sensor 24 128) (reading_env 512)
      (replicate 32 1) (run adcKeyVal NUM_SENSORS [(100, 100)] init_state)
    = Some (lcd_clear
              :: lcd_printIn (header (handler s))
              :: lcd_cursorTo 2 0
              :: lcd_printIn (chars "Value: ")
              :: ops).
Proof.
  apply (@updateLCDScreen_dispatch spec_float binary32 (ieee_sensor 24 128)
           (reading_env 512) (replicate 32 1) [(100, 100)]).
  - reflexivity.
  - intros v. simpl. lia.
Defined.

(** The comparison of the two texts, reading by reading. *)
Lemma temperature_agrees_binary64 :
  forallb (temperature_agrees 53 1024) readings = true.
Proof. vm_compute. reflexivity. Qed.

Lemma temperature_agrees_binary32 :
  forallb (fun r => temperature_agrees 24 128 r || (r =? 899) || (r =? 963))
    readings = true.
Proof. vm_compute. reflexivity. Qed.

Lemma temperature_length_binary32 :
  forallb (fun r => (length (@temperature_text spec_float (ieee_double 24 128)
                               (ieee_sensor 24 128) r) <=? 6)%nat)
    readings = true.
Proof. vm_compute. reflexivity. Qed.

(** X17: with a 64-bit IEEE [double], for every reading of the 10-bit
    converter the temperature handler prints the temperature
    [(reading * .004882814 - .5) * 100] rounded half away from zero at two
    decimal places, as exact arithmetic gives it, between the header and
    the unit. *)
Theorem temperature_display_binary64 (e : env) (value0 : mem) :
  length value0 = 32%nat ->
  0 <= analogRead e 2 <= ADC_MAX ->
  @tempSensorHandler_run spec_float (ieee_double 53 1024) (ieee_sensor 53 1024)
    e value0 0 =
    Some [lcd_printIn (chars "[Temperature]");
          lcd_cursorTo 2 0;
          lcd_printIn (chars "Value: ");
          lcd_printIn (temperature_exact (analogRead e 2));
          lcd_printIn (chars " C")].
Proof.
  intros Hlen Hr. rewrite tempSensorHandler_trace by done.
  pose proof temperature_agrees_binary64 as Hall.
  rewrite forallb_forall in Hall.
  specialize (Hall (analogRead e 2)
                (proj1 (list_elem_of_In _ _) (elem_of_readings _ Hr))).
  apply bool_decide_eq_true in Hall. by rewrite <- Hall.
Qed.

Lemma temperature_display_binary64_witness :
  @tempSensorHandler_run spec_float (ieee_double 53 1024) (ieee_sensor 53 1024)
    (reading_env 143) (replicate 32 1) 0 =
    Some [lcd_printIn (chars "[Temperature]");
          lcd_cursorTo 2 0;
          lcd_printIn (chars "Value: ");
          lcd_printIn (chars "19.82");
          lcd_printIn (chars " C")].
Proof.
  apply (temperature_display_binary64 (reading_env 143) (replicate 32 1)).
  - reflexivity.
  - vm_compute. split; discriminate.
Defined.

(** X18: with the 32-bit [double] of the AVR boards, for every reading of
    the converter the temperature text has at most 6 characters, and it is
    the exactly rounded temperature for every reading but 899 and 963. *)
Theorem temperature_display_binary32 (e : env) (value0 : mem) :
  length value0 = 32%nat ->
  0 <= analogRead e 2 <= ADC_MAX ->
  exists text : list Z,
    @tempSensorHandler_run spec_float (ieee_double 24 128) (ieee_sensor 24 128)
      e value0 0 =
      Some [lcd_printIn (chars "[Temperature]");
            lcd_cursorTo 2 0;
            lcd_printIn (chars "Value: ");
            lcd_printIn text;
            lcd_printIn (chars " C")] /\
    (length text <= 6)%nat /\
    (analogRead e 2 <> 899 -> analogRead e 2 <> 963 ->
     text = temperature_exact (analogRead e 2)).
Proof.
  intros Hlen Hr. rewrite tempSensorHandler_trace by done.
  eexists. split; [reflexivity|].
  pose proof (proj1 (list_elem_of_In _ _) (elem_of_readings _ Hr)) as Hin.
  split.
  - pose proof temperature_length_binary32 as Hall.
    rewrite forallb_forall in Hall. specialize (Hall _ Hin).
    by apply Nat.leb_le in Hall.
  - intros H899 H963.
    pose proof temperature_agrees_binary32 as Hall.
    rewrite forallb_forall in Hall. specialize (Hall _ Hin). cbv beta in Hall.
    destruct (Z.eqb_spec (analogRead e 2) 899); [done|].
    destruct (Z.eqb_spec (analogRead e 2) 963); [done|].
    rewrite !orb_false_r in Hall.
    by apply bool_decide_eq_true in Hall.
Qed.

Lemma temperature_display_binary32_witness :
  exists text : list Z,
    @tempSensorHandler_run spec_float (ieee_double 24 128) (ieee_sensor 24 128)
      (reading_env 143) (replicate 32 1) 0 =
      Some [lcd_printIn (chars "[Temperature]");
            lcd_cursorTo 2 0;
            lcd_printIn (chars "Value: ");
            lcd_printIn text;
            lcd_printIn (chars " C")] /\
    (length text <= 6)%nat /\
    (143 <> 899 -> 143 <> 963 -> text = chars "19.82").
Proof.
  apply (temperature_display_binary32 (reading_env 143) (replicate 32 1)).
  - reflexivity.
  - vm_compute. split; discriminate.
Defined.
